(** * Recursive-merge state containers (state.py)

    A shallow embedding of [state.py]: the capability protocol
    ([Updater], [Updatable]), the abstract [State], the mapping states
    [StateDict] and [View], and the append log [History].

    Python objects live in a heap, so that aliasing between a container,
    its copies and the values stored in them is visible.  Classes are
    described by their [__mro__] and the names bound in each class body,
    which is what [super()] and [issubclass] inspect at run time. *)

From Stdlib Require Import ZArith Lia.
From stdpp Require Import base list strings numbers.

Local Open Scope Z_scope.

(** ** Classes, method resolution order and attribute lookup *)

Module Classes.

(** A class is known by its name and by the names bound in its body
    ([__dict__]).  For builtins the public method names are listed. *)
Record pyclass := PyClass { cls_name : string; cls_dict : list string }.

(** A type is given by its [__mro__], the type itself first. *)
Definition pytype := list pyclass.

Definition str_in (name : string) (names : list string) : bool :=
  existsb (String.eqb name) names.

Definition pyclass_eqb (K L : pyclass) : bool :=
  String.eqb (cls_name K) (cls_name L)
  && bool_decide (cls_dict K = cls_dict L).

Definition object_class : pyclass := PyClass "object" [].
Definition ABC_class : pyclass := PyClass "ABC" [].
Definition NoneType_class : pyclass := PyClass "NoneType" [].
Definition int_class : pyclass :=
  PyClass "int" ["as_integer_ratio"; "bit_length"; "conjugate"; "denominator";
                 "from_bytes"; "imag"; "numerator"; "real"; "to_bytes"]%string.
Definition str_class : pyclass :=
  PyClass "str" ["capitalize"; "casefold"; "center"; "count"; "encode";
                 "endswith"; "expandtabs"; "find"; "format"; "format_map";
                 "index"; "isalnum"; "isalpha"; "isascii"; "isdecimal";
                 "isdigit"; "isidentifier"; "islower"; "isnumeric";
                 "isprintable"; "isspace"; "istitle"; "isupper"; "join";
                 "ljust"; "lower"; "lstrip"; "maketrans"; "partition";
                 "replace"; "rfind"; "rindex"; "rjust"; "rpartition";
                 "rsplit"; "rstrip"; "split"; "splitlines"; "startswith";
                 "strip"; "swapcase"; "title"; "translate"; "upper";
                 "zfill"]%string.
Definition dict_class : pyclass :=
  PyClass "dict" ["clear"; "copy"; "fromkeys"; "get"; "items"; "keys"; "pop";
                  "popitem"; "setdefault"; "update"; "values"]%string.
Definition list_class : pyclass :=
  PyClass "list" ["append"; "clear"; "copy"; "count"; "extend"; "index";
                  "insert"; "pop"; "remove"; "reverse"; "sort"]%string.

(** The classes of [state.py], with the names their bodies bind. *)
Definition Updater_class : pyclass :=
  PyClass "Updater" ["update_item"; "is_atomic"; "is_updatable"]%string.
Definition Updatable_class : pyclass :=
  PyClass "Updatable" ["__subclasshook__"; "update"]%string.
Definition State_class : pyclass :=
  PyClass "State" ["update_item"; "copy"; "is_updatable"; "__or__"]%string.
Definition StateDict_class : pyclass :=
  PyClass "StateDict" ["__update__"; "_update_item"; "_add_item"; "update";
                       "copy"]%string.
Definition View_class : pyclass := PyClass "View" ["_add_item"]%string.
Definition History_class : pyclass := PyClass "History" ["update"; "push"]%string.

(** The linearisations Python computes for the class statements
    [class State(Updater, Updatable)], [class StateDict(dict, State)],
    [class View(StateDict)] and [class History(list, Updatable)]. *)
Definition object_type : pytype := [object_class].
Definition NoneType_type : pytype := [NoneType_class; object_class].
Definition int_type : pytype := [int_class; object_class].
Definition str_type : pytype := [str_class; object_class].
Definition dict_type : pytype := [dict_class; object_class].
Definition list_type : pytype := [list_class; object_class].
Definition ABC_type : pytype := [ABC_class; object_class].
Definition Updater_type : pytype := [Updater_class; ABC_class; object_class].
Definition Updatable_type : pytype := [Updatable_class; ABC_class; object_class].
Definition State_type : pytype :=
  [State_class; Updater_class; Updatable_class; ABC_class; object_class].
Definition StateDict_type : pytype :=
  [StateDict_class; dict_class; State_class; Updater_class; Updatable_class;
   ABC_class; object_class].
Definition View_type : pytype := View_class :: StateDict_type.
Definition History_type : pytype :=
  [History_class; list_class; Updatable_class; ABC_class; object_class].

(** [name in Sup.__dict__] *)
Definition defines (Sup : pyclass) (name : string) : bool :=
  str_in name (cls_dict Sup).

(** Attribute lookup on a type: the first class of the [__mro__] whose
    body binds the name. *)
Definition type_lookup (C : pytype) (name : string) : option pyclass :=
  List.find (fun Sup => defines Sup name) C.

(** The part of the [__mro__] that follows the class [after]. *)
Fixpoint mro_after (after : pyclass) (C : pytype) : pytype :=
  match C with
  | [] => []
  | K :: rest => if pyclass_eqb K after then rest else mro_after after rest
  end.

(** [super(after, cls).name]: lookup in the [__mro__] of [cls], starting
    behind [after]. *)
Definition super_lookup (after : pyclass) (cls : pytype) (name : string)
  : option pyclass :=
  type_lookup (mro_after after cls) name.

(** ** The capability protocol *)

(** [Updatable.__subclasshook__(cls, C)]; [None] stands for
    [NotImplemented].  Every subclass of [Updatable] inherits the hook, and
    there [cls is Updatable] fails. *)
Definition Updatable___subclasshook__ (cls : pyclass) (C : pytype)
  : option bool :=
  if pyclass_eqb cls Updatable_class then
    if existsb (fun Sup => defines Sup "update") C then Some true else None
  else None.

#[global] Instance pyclass_eq_dec : EqDecision pyclass.
Proof. solve_decision. Defined.

(** [C in s] for a set [s] of types. *)
Definition mem_type (C : pytype) (s : list pytype) : bool :=
  bool_decide (C ∈ s).

#[local] Unset Elimination Schemes.

(** The abstract base classes below [Updatable], each with the data
    [ABCMeta] keeps for it: the registry of virtual subclasses (filled by
    [register]), the cache and the negative cache of [issubclass] answers
    with the version of the latter, and its subclasses
    ([cls.__subclasses__()]), themselves abstract base classes.  The
    registered classes are ordinary classes. *)
Inductive abc_node :=
| AbcNode (cls : pyclass) (registry : list pyclass)
    (cache negative_cache : list pytype) (negative_cache_version : nat)
    (subclasses : list abc_node).

#[local] Set Elimination Schemes.

(** The state of the [ABCMeta] machinery: the tree of [Updatable] and the
    invalidation counter, which every [register] increments. *)
Record abc_world := AbcWorld {
  abc_tree : abc_node;
  abc_invalidation_counter : nat
}.

Definition node_class (t : abc_node) : pyclass :=
  match t with AbcNode cls _ _ _ _ _ => cls end.

(** [issubclass(C, rcls)] for some class [rcls] of a registry: an ordinary
    class is a superclass of [C] when it is in the [__mro__] of [C]. *)
Definition registry_hit (registry : list pyclass) (C : pytype) : bool :=
  existsb (fun rcls => existsb (pyclass_eqb rcls) C) registry.

Section Scan.

Context {A : Type} (check : A → bool * A).

(** [for scls in subclasses: if check(scls): return True]: the subclasses
    are tried in order until one answers true; each one tried keeps what the
    check did to it. *)
Fixpoint scan_first (ts : list A) : bool * list A :=
  match ts with
  | [] => (false, [])
  | t :: rest =>
      let (b, t') := check t in
      if b then (true, t' :: rest)
      else let (b', rest') := scan_first rest in (b', t' :: rest')
  end.

End Scan.

(** [ABCMeta.__subclasscheck__(cls, C)], which [issubclass(C, cls)] runs
    for an abstract base class [cls], here the class of [node]:
    the cache; the negative cache, emptied first when a registration has
    happened since it was filled; the hook; direct inheritance
    ([cls in C.__mro__]); the registry; the subclasses of [cls].  A positive
    answer is added to the cache, a negative one to the negative cache. *)
Fixpoint abc_subclasscheck (counter : nat) (node : abc_node) (C : pytype)
  : bool * abc_node :=
  match node with
  | AbcNode cls registry cache negative version subs =>
      if mem_type C cache then (true, node)
      else
        let stale := (version <? counter)%nat in
        let negative1 := if stale then [] else negative in
        let version1 := if stale then counter else version in
        if negb stale && mem_type C negative then (false, node)
        else
          let hit subs' :=
            (true, AbcNode cls registry (C :: cache) negative1 version1 subs') in
          let miss subs' :=
            (false,
             AbcNode cls registry cache (C :: negative1) version1 subs') in
          match Updatable___subclasshook__ cls C with
          | Some true => hit subs
          | Some false => miss subs
          | None =>
              if existsb (pyclass_eqb cls) C then hit subs
              else if registry_hit registry C then hit subs
              else
                let (found, subs') :=
                  scan_first (fun t => abc_subclasscheck counter t C) subs in
                if found then hit subs' else miss subs'
          end
  end.

(** [issubclass(C, Updatable)] *)
Definition issubclass_Updatable (C : pytype) (w : abc_world)
  : bool * abc_world :=
  let (b, t') := abc_subclasscheck (abc_invalidation_counter w) (abc_tree w) C in
  (b, AbcWorld t' (abc_invalidation_counter w)).

(** What [register] did. *)
Inductive register_outcome :=
| Registered | AlreadySubclass | InheritanceCycle | NotAClass.

(** [Updatable.register(subclass)] for an ordinary class: nothing to do
    when [issubclass(subclass, Updatable)] holds already; refused when
    [issubclass(Updatable, subclass)], which for an ordinary class asks
    whether it is in the [__mro__] of [Updatable]; otherwise the class is
    added to the registry and the invalidation counter goes up. *)
Definition Updatable_register (subclass : pytype) (w : abc_world)
  : register_outcome * abc_world :=
  match subclass with
  | [] => (NotAClass, w)
  | K :: _ =>
      let (already, w1) := issubclass_Updatable subclass w in
      if already then (AlreadySubclass, w1)
      else if existsb (pyclass_eqb K) Updatable_type then (InheritanceCycle, w1)
      else
        match abc_tree w1 with
        | AbcNode cls registry cache negative version subs =>
            (Registered,
             AbcWorld (AbcNode cls (K :: registry) cache negative version subs)
               (S (abc_invalidation_counter w1)))
        end
  end.

(** [State.is_updatable(cls, C)]. *)
Definition State_is_updatable (cls : pytype) (C : pytype) (w : abc_world)
  : bool * abc_world :=
  issubclass_Updatable C w.

(** [Updater.is_atomic(cls, C)]: [not cls.is_updatable(C)].  For a class
    of the mapping-state family [cls.is_updatable] is [State.is_updatable];
    [None] is returned where the lookup ends elsewhere (the abstract
    [Updater.is_updatable], outside that family). *)
Definition Updater_is_atomic (cls : pytype) (C : pytype) (w : abc_world)
  : option bool * abc_world :=
  match type_lookup cls "is_updatable" with
  | Some K =>
      if pyclass_eqb K State_class then
        let (b, w') := State_is_updatable cls C w in (Some (negb b), w')
      else (None, w)
  | None => (None, w)
  end.

(** The classes of the mapping-state family. *)
Definition state_family : list pytype := [State_type; StateDict_type; View_type].

(** A type exposes [name] when some class of its [__mro__] binds it. *)
Definition exposes (C : pytype) (name : string) : Prop :=
  ∃ Sup, In Sup C ∧ In name (cls_dict Sup).

(** The tree as the module creates it: [State] and [History] below
    [Updatable], [StateDict] below [State], [View] below [StateDict];
    nothing registered, nothing cached. *)
Definition module_tree : abc_node :=
  AbcNode Updatable_class [] [] [] 0
    [AbcNode State_class [] [] [] 0
       [AbcNode StateDict_class [] [] [] 0
          [AbcNode View_class [] [] [] 0 []]];
     AbcNode History_class [] [] [] 0 []].

Definition module_world : abc_world := AbcWorld module_tree 0.

(** The classes of the tree, and the classes registered anywhere in it. *)
Fixpoint tree_classes (t : abc_node) : list pyclass :=
  match t with
  | AbcNode cls _ _ _ _ subs => cls :: flat_map tree_classes subs
  end.

Fixpoint tree_registries (t : abc_node) : list pyclass :=
  match t with
  | AbcNode _ registry _ _ _ subs => registry ++ flat_map tree_registries subs
  end.

(** [C] inherits from a class registered in the tree. *)
Definition registered (t : abc_node) (C : pytype) : Prop :=
  ∃ rcls, In rcls (tree_registries t) ∧ In rcls C.

(** The answer of [issubclass(C, cls)] read off the classes and the
    registries alone, without the caches. *)
Fixpoint abc_answer (t : abc_node) (C : pytype) : bool :=
  match t with
  | AbcNode cls registry _ _ _ subs =>
      match Updatable___subclasshook__ cls C with
      | Some ok => ok
      | None =>
          existsb (pyclass_eqb cls) C
          || registry_hit registry C
          || existsb (fun s => abc_answer s C) subs
      end
  end.

(** The caches hold what was computed: every cached type is a subclass;
    the version of a negative cache is a past value of the counter; and
    while no registration has happened since the negative cache was filled,
    every type in it is not a subclass.  This holds as the module creates
    the classes, and every check and every registration keeps it. *)
Fixpoint cache_ok (counter : nat) (t : abc_node) : Prop :=
  match t with
  | AbcNode cls registry cache negative version subs =>
      (∀ C, In C cache → abc_answer t C = true)
      ∧ (version ≤ counter)%nat
      ∧ ((counter ≤ version)%nat → ∀ C, In C negative → abc_answer t C = false)
      ∧ fold_right (fun s P => cache_ok counter s ∧ P) True subs
  end.

Definition world_ok (w : abc_world) : Prop :=
  node_class (abc_tree w) = Updatable_class
  ∧ cache_ok (abc_invalidation_counter w) (abc_tree w).

(** A class that has a class of the tree in its [__mro__] has [Updatable]
    there as well: the classes of the tree inherit from it. *)
Definition inherits_Updatable (t : abc_node) (C : pytype) : Prop :=
  ∀ K, In K (tree_classes t) → In K C → In Updatable_class C.

(** The tree without its caches: what no check changes. *)
Fixpoint abc_erase (t : abc_node) : abc_node :=
  match t with
  | AbcNode cls registry _ _ _ subs =>
      AbcNode cls registry [] [] 0 (map abc_erase subs)
  end.

End Classes.

(** ** Values, objects and the heap *)

Module Py.
Import Classes.

Abbreviation addr := nat.

(** Values: [None], integers, strings, and references to heap objects
    (mappings and sequences, the mutable values of the module). *)
Inductive value :=
| VNone
| VInt (n : Z)
| VStr (s : string)
| VRef (a : addr).

(** Hashable values, as used for dictionary keys. *)
Inductive key :=
| KNone
| KInt (n : Z)
| KStr (s : string).

#[global] Instance value_eq_dec : EqDecision value.
Proof. solve_decision. Defined.

#[global] Instance key_eq_dec : EqDecision key.
Proof. solve_decision. Defined.

Definition key_value (k : key) : value :=
  match k with
  | KNone => VNone
  | KInt n => VInt n
  | KStr s => VStr s
  end.

(** The run-time class of a mapping object and of a sequence object. *)
Inductive dict_kind := CDict | CStateDict | CView.
Inductive list_kind := CList | CHistory.

#[global] Instance dict_kind_eq_dec : EqDecision dict_kind.
Proof. solve_decision. Defined.

#[global] Instance list_kind_eq_dec : EqDecision list_kind.
Proof. solve_decision. Defined.

(** A mapping object keeps its items in insertion order, keys unique; a
    sequence object keeps its elements. *)
Inductive obj :=
| ODict (c : dict_kind) (items : list (key * value))
| OList (c : list_kind) (elems : list value).

#[global] Instance obj_eq_dec : EqDecision obj.
Proof. solve_decision. Defined.

(** The heap: object [a] is stored at index [a]; allocation appends. *)
Abbreviation heap := (list obj).

Definition dict_kind_type (c : dict_kind) : pytype :=
  match c with
  | CDict => dict_type
  | CStateDict => StateDict_type
  | CView => View_type
  end.

Definition list_kind_type (c : list_kind) : pytype :=
  match c with
  | CList => list_type
  | CHistory => History_type
  end.

(** [type(v)] *)
Definition type_of (h : heap) (v : value) : pytype :=
  match v with
  | VNone => NoneType_type
  | VInt _ => int_type
  | VStr _ => str_type
  | VRef a =>
      match h !! a with
      | Some (ODict c _) => dict_kind_type c
      | Some (OList c _) => list_kind_type c
      | None => object_type
      end
  end.

(** *** Exceptions and the monad of heap computations *)

(** The Python exceptions that occur, and [InternalError] for what a
    Python program cannot do: follow a reference that was never allocated,
    or enter a method with a receiver that is no instance of its class. *)
Inductive exn := TypeError | ValueError | KeyError | AttributeError | InternalError.

#[global] Instance exn_eq_dec : EqDecision exn.
Proof. solve_decision. Defined.

Inductive result (A : Type) :=
| Ok (a : A)
| Raise (e : exn).
Arguments Ok {A} a.
Arguments Raise {A} e.

Definition M (A : Type) : Type := heap → result A * heap.

Definition ret {A} (a : A) : M A := fun h => (Ok a, h).
Definition raise {A} (e : exn) : M A := fun h => (Raise e, h).
Definition bind {A B} (m : M A) (f : A → M B) : M B :=
  fun h =>
    match m h with
    | (Ok a, h') => f a h'
    | (Raise e, h') => (Raise e, h')
    end.

(** [try: m  except e: handler]; the heap keeps what [m] did before it
    raised. *)
Definition try_except {A} (m : M A) (e : exn) (handler : M A) : M A :=
  fun h =>
    match m h with
    | (Ok a, h') => (Ok a, h')
    | (Raise e', h') => if decide (e' = e) then handler h' else (Raise e', h')
    end.

Notation "'let*' x ':=' m 'in' k" := (bind m (fun x => k))
  (at level 10, x name, m at level 100, k at level 200, only parsing).
Notation "m ;;; k" := (bind m (fun _ => k))
  (at level 100, right associativity, only parsing).

(** [for x in xs: body(x)] over a snapshot [xs]. *)
Fixpoint for_each {A} (xs : list A) (body : A → M unit) : M unit :=
  match xs with
  | [] => ret tt
  | x :: xs' => body x ;;; for_each xs' body
  end.

Definition alloc (o : obj) : M addr := fun h => (Ok (length h), h ++ [o]).

(** *** Items of a mapping *)

Fixpoint dict_get (k : key) (items : list (key * value)) : option value :=
  match items with
  | [] => None
  | (k', v) :: rest => if decide (k' = k) then Some v else dict_get k rest
  end.

Definition dict_contains (k : key) (items : list (key * value)) : bool :=
  match dict_get k items with Some _ => true | None => false end.

(** [d[k] = v]: the value is replaced where the key is present, the item
    is appended otherwise. *)
Fixpoint dict_set (k : key) (v : value) (items : list (key * value))
  : list (key * value) :=
  match items with
  | [] => [(k, v)]
  | (k', v') :: rest =>
      if decide (k' = k) then (k', v) :: rest else (k', v') :: dict_set k v rest
  end.

Definition dict_keys (items : list (key * value)) : list key := map fst items.

(** The items of [a] after every item of [b] was stored into it, in the
    order of [b]. *)
Definition merge_items (a b : list (key * value)) : list (key * value) :=
  fold_left (fun acc kv => dict_set (fst kv) (snd kv) acc) b a.

(** *** Builtin operations on heap objects *)

(** [hash(v)] succeeds on [None], integers and strings; mappings and
    sequences are unhashable. *)
Definition hash_key (v : value) : M key :=
  match v with
  | VNone => ret KNone
  | VInt n => ret (KInt n)
  | VStr s => ret (KStr s)
  | VRef _ => raise TypeError
  end.

Fixpoint chars (s : string) : list value :=
  match s with
  | EmptyString => []
  | String c rest => VStr (String c EmptyString) :: chars rest
  end.

(** [list(v)]: the elements that iterating [v] yields. *)
Definition iterate (v : value) : M (list value) :=
  fun h =>
    match v with
    | VNone | VInt _ => (Raise TypeError, h)
    | VStr s => (Ok (chars s), h)
    | VRef a =>
        match h !! a with
        | Some (ODict _ items) => (Ok (map key_value (dict_keys items)), h)
        | Some (OList _ elems) => (Ok elems, h)
        | None => (Raise InternalError, h)
        end
    end.

(** The items of the mapping at [a]. *)
Definition items_of (a : addr) : M (list (key * value)) :=
  fun h =>
    match h !! a with
    | Some (ODict _ items) => (Ok items, h)
    | _ => (Raise InternalError, h)
    end.

Definition kind_of (a : addr) : M dict_kind :=
  fun h =>
    match h !! a with
    | Some (ODict c _) => (Ok c, h)
    | _ => (Raise InternalError, h)
    end.

(** [key in self] *)
Definition contains (self : addr) (k : key) : M bool :=
  let* items := items_of self in ret (dict_contains k items).

(** [self[key]] *)
Definition get_item (self : addr) (k : key) : M value :=
  let* items := items_of self in
  match dict_get k items with
  | Some v => ret v
  | None => raise KeyError
  end.

(** [self[key] = val] *)
Definition set_item (self : addr) (k : key) (v : value) : M unit :=
  fun h =>
    match h !! self with
    | Some (ODict c items) => (Ok tt, <[self := ODict c (dict_set k v items)]> h)
    | _ => (Raise InternalError, h)
    end.

(** [PyDict_Merge(self, b)]: every item of the mapping [b] is stored into
    [self]; nothing happens when they are the same object. *)
Definition dict_merge (self b : addr) : M unit :=
  fun h =>
    if decide (self = b) then (Ok tt, h)
    else
      match h !! self, h !! b with
      | Some (ODict c items), Some (ODict _ its) =>
          (Ok tt, <[self := ODict c (merge_items items its)]> h)
      | _, _ => (Raise InternalError, h)
      end.

(** [PyDict_MergeFromSeq2(self, seq)]: every element of [seq] must itself
    yield exactly two elements, a hashable key and a value.  The items
    stored before a failing element stay. *)
Definition dict_merge_seq2 (self : addr) (seq : value) : M unit :=
  let* elems := iterate seq in
  for_each elems (fun item =>
    let* fast := iterate item in
    match fast with
    | [k; v] => let* key := hash_key k in set_item self key v
    | _ => raise ValueError
    end).

(** The keyword arguments of a call, as a mapping from names to values. *)
Definition kwargs_items (kwargs : list (string * value)) : list (key * value) :=
  merge_items [] (map (fun kv => (KStr (fst kv), snd kv)) kwargs).

(** The common body of [dict.__init__] and [dict.update]: at most one
    positional argument, a mapping or a sequence of pairs, then the keyword
    arguments. *)
Definition dict_update_common (self : addr) (args : list value)
    (kwargs : list (string * value)) : M unit :=
  match args with
  | [] => ret tt
  | [arg] =>
      fun h =>
        match arg with
        | VRef b =>
            match h !! b with
            | Some (ODict _ _) => dict_merge self b h
            | _ => dict_merge_seq2 self arg h
            end
        | _ => dict_merge_seq2 self arg h
        end
  | _ => raise TypeError
  end ;;;
  fun h =>
    match h !! self with
    | Some (ODict c items) =>
        (Ok tt, <[self := ODict c (merge_items items (kwargs_items kwargs))]> h)
    | _ => (Raise InternalError, h)
    end.

(** [cls(args, kwargs)], both arguments starred, for a mapping class
    that inherits [dict.__new__] and [dict.__init__]. *)
Definition dict_new (c : dict_kind) (args : list value)
    (kwargs : list (string * value)) : M addr :=
  let* self := alloc (ODict c []) in
  dict_update_common self args kwargs ;;;
  ret self.

(** [dict.update(self, args, kwargs)] *)
Definition dict_update (self : addr) (args : list value)
    (kwargs : list (string * value)) : M value :=
  dict_update_common self args kwargs ;;; ret VNone.

(** [dict.copy(self)]: a new object of class [dict] exactly, whatever the
    class of [self], holding the same items. *)
Definition dict_copy (self : addr) : M value :=
  let* items := items_of self in
  let* a := alloc (ODict CDict items) in
  ret (VRef a).

(** [list.extend(self, iterable)] *)
Definition list_extend (self : addr) (iterable : value) : M value :=
  let* new := iterate iterable in
  fun h =>
    match h !! self with
    | Some (OList c elems) => (Ok VNone, <[self := OList c (elems ++ new)]> h)
    | _ => (Raise InternalError, h)
    end.

(** [list.copy(self)]: a new object of class [list] exactly. *)
Definition list_copy (self : addr) : M value :=
  fun h =>
    match h !! self with
    | Some (OList _ elems) => (Ok (VRef (length h)), h ++ [OList CList elems])
    | _ => (Raise InternalError, h)
    end.

End Py.

(** ** The methods of state.py *)

Import Classes Py.

(** [Updatable.update(self, other)]: the abstract method, body [pass]. *)
Definition Updatable_update (self other : value) : M value := ret VNone.

(** [Updater.update_item(cls, original, update)]: raises [TypeError]
    when the type of [original] is atomic for [cls].  The check runs in the
    state [w] of the abstract base classes. *)
Definition Updater_update_item (cls : pytype) (original update : value)
    (w : abc_world) (h : heap) : (result value * heap) * abc_world :=
  match Updater_is_atomic cls (type_of h original) w with
  | (Some true, w') => ((Raise TypeError, h), w')
  | (Some false, w') => ((Ok VNone, h), w')
  | (None, w') => ((Raise InternalError, h), w')
  end.

(** [State.update_item(cls, first, second)]: [super().update(first, second)].
    In a classmethod [super()] is [super(State, cls)], and the function it
    finds is called unbound, with [first] as its [self]. *)
Definition State_update_item (cls : pytype) (first second : value) : M value :=
  match super_lookup State_class cls "update" with
  | Some K =>
      if pyclass_eqb K Updatable_class then Updatable_update first second
      else raise InternalError
  | None => raise AttributeError
  end.

(** [StateDict._update_item(self, key, val)], for the [update_item] that
    [self.__class__] provides:
    [try: update_item(self[key], val)  except TypeError: self[key] = val]. *)
Definition _update_item_with (update_item : value → value → M value)
    (self : addr) (k : key) (val : value) : M value :=
  try_except
    (let* cur := get_item self k in update_item cur val)
    TypeError
    (set_item self k val ;;; ret VNone).

(** [StateDict._update_item]: every mapping state inherits
    [State.update_item]. *)
Definition StateDict__update_item (self : addr) (k : key) (val : value)
  : M value :=
  let* c := kind_of self in
  _update_item_with (State_update_item (dict_kind_type c)) self k val.

(** [StateDict._add_item(self, key, val)]: [self[key] = val]. *)
Definition StateDict__add_item (self : addr) (k : key) (val : value)
  : M value :=
  set_item self k val ;;; ret VNone.

(** [View._add_item(self, key, val)]: [pass]. *)
Definition View__add_item (self : addr) (k : key) (val : value) : M value :=
  ret VNone.

(** [self._add_item(key, val)], by the class of [self]. *)
Definition call__add_item (self : addr) (k : key) (val : value) : M value :=
  let* c := kind_of self in
  match c with
  | CStateDict => StateDict__add_item self k val
  | CView => View__add_item self k val
  | CDict => raise AttributeError
  end.

(** The body of the loop of [StateDict.__update__], for one key:
    [if key in self: self._update_item(key, other[key])
     else: self._add_item(key, other[key])]. *)
Definition update_body (self other : addr) (k : key) : M unit :=
  let* present := contains self k in
  let* val := get_item other k in
  (if present then StateDict__update_item self k val
   else call__add_item self k val) ;;; ret tt.

(** [StateDict.__update__(self, other)]: [for key in other: ...]. *)
Definition StateDict___update__ (self other : addr) : M value :=
  let* its := items_of other in
  for_each (dict_keys its) (update_body self other) ;;;
  ret VNone.

(** [StateDict.update(self, args, kwargs)]:
    [self.__update__(self.__class__(args, kwargs))], both arguments
    starred. *)
Definition StateDict_update (self : addr) (args : list value)
    (kwargs : list (string * value)) : M value :=
  let* c := kind_of self in
  match c with
  | CDict => raise AttributeError
  | _ =>
      let* other := dict_new c args kwargs in
      StateDict___update__ self other
  end.

(** [StateDict.copy(self)]: [super().copy()], which is [dict.copy]. *)
Definition StateDict_copy (self : addr) : M value :=
  let* c := kind_of self in
  match super_lookup StateDict_class (dict_kind_type c) "copy" with
  | Some K =>
      if pyclass_eqb K dict_class then dict_copy self else raise InternalError
  | None => raise AttributeError
  end.

(** [History.update(self, other)]: [self.extend(other)]. *)
Definition History_update (self : addr) (other : value) : M value :=
  list_extend self other ;;; ret VNone.

(** [History.push(self, item)]: [self.update(item)]. *)
Definition History_push (self : addr) (item : value) : M value :=
  History_update self item ;;; ret VNone.

(** [v.copy()], by the class of [v]. *)
Definition call_copy (v : value) : M value :=
  fun h =>
    match v with
    | VRef a =>
        match h !! a with
        | Some (ODict CDict _) => dict_copy a h
        | Some (ODict _ _) => StateDict_copy a h
        | Some (OList _ _) => list_copy a h
        | None => (Raise InternalError, h)
        end
    | _ => (Raise AttributeError, h)
    end.

(** [v.update(args, kwargs)], by the class of [v]. *)
Definition call_update (v : value) (args : list value)
    (kwargs : list (string * value)) : M value :=
  fun h =>
    match v with
    | VRef a =>
        match h !! a with
        | Some (ODict CDict _) => dict_update a args kwargs h
        | Some (ODict _ _) => StateDict_update a args kwargs h
        | Some (OList CHistory _) =>
            match args, kwargs with
            | [other], [] => History_update a other h
            | _, _ => (Raise TypeError, h)
            end
        | Some (OList CList _) => (Raise AttributeError, h)
        | None => (Raise InternalError, h)
        end
    | _ => (Raise AttributeError, h)
    end.

(** [State.__or__(self, other)]:
    [copy = self.copy(); copy.update(other); return copy].  Where the
    builtin [dict], which precedes [State] in the [__mro__] of [StateDict],
    defines the operator itself, it is the same copy followed by the same
    builtin update. *)
Definition State___or__ (self other : value) : M value :=
  let* copy := call_copy self in
  call_update copy [other] [] ;;;
  ret copy.

(** ** Reading the heap *)

(** The items of the mapping stored at [a], if any. *)
Definition items_at (h : heap) (a : addr) : option (list (key * value)) :=
  match h !! a with
  | Some (ODict _ items) => Some items
  | _ => None
  end.

(** The class of the mapping stored at [a], if any. *)
Definition kind_at (h : heap) (a : addr) : option dict_kind :=
  match h !! a with
  | Some (ODict c _) => Some c
  | _ => None
  end.

(** The elements of the sequence stored at [a], if any. *)
Definition elems_at (h : heap) (a : addr) : option (list value) :=
  match h !! a with
  | Some (OList _ elems) => Some elems
  | _ => None
  end.

(** A mapping state: an instance of [StateDict] or [View]. *)
Definition is_state (c : dict_kind) : bool :=
  match c with
  | CDict => false
  | CStateDict | CView => true
  end.

(** Every object of [h] is still in [h'], unchanged. *)
Definition preserved (h h' : heap) : Prop :=
  ∀ a o, h !! a = Some o → h' !! a = Some o.

(** What the loop of [__update__] keeps true of the items of [self]:
    every item present at the start is still there with its value, only
    keys of [other] that were absent are added, and a [View] is left as it
    was. *)
Definition loop_inv (c : dict_kind) (items its acc : list (key * value))
  : Prop :=
  (∀ k v, dict_get k items = Some v → dict_get k acc = Some v)
  ∧ (∀ k, In k (dict_keys acc) →
          In k (dict_keys items) ∨ In k (dict_keys its))
  ∧ (c = CView → acc = items).

(** The computation [m] keeps the property [I] of the heap, whether it
    returns or raises. *)
Definition keeps {A} (I : heap → Prop) (m : M A) : Prop :=
  ∀ hh, I hh → I (m hh).2.

(** The heap is [h] followed by one mapping of class [c]: the state while
    a new mapping is being filled. *)
Definition filling (h : heap) (c : dict_kind) (hh : heap) : Prop :=
  ∃ its, hh = h ++ [ODict c its].

(** Scenarios: string keys, integer values. *)
Definition skey (s : string) : key := KStr s.

(** ** Scenarios *)

(** [StateDict({"x": 1})] at address 0 and the mapping [{"x": 2}] at 1. *)
Definition atomic_heap : heap :=
  [ODict CStateDict [(skey "x", VInt 1)];
   ODict CStateDict [(skey "x", VInt 2)]].

(** [{"a": {"b": {"c": 1}}}] at address 0 (inner states at 1 and 2) and
    [{"a": {"b": {"c": 2, "d": 3}}}] at address 3 (inner states at 4
    and 5). *)
Definition nested_heap : heap :=
  [ODict CStateDict [(skey "a", VRef 1)];
   ODict CStateDict [(skey "b", VRef 2)];
   ODict CStateDict [(skey "c", VInt 1)];
   ODict CStateDict [(skey "a", VRef 4)];
   ODict CStateDict [(skey "b", VRef 5)];
   ODict CStateDict [(skey "c", VInt 2); (skey "d", VInt 3)]].

(** The view [{"a": 1, "b": 2}] at address 0 and the mapping
    [{"a": 10, "c": 99}] at 1. *)
Definition view_heap : heap :=
  [ODict CView [(skey "a", VInt 1); (skey "b", VInt 2)];
   ODict CDict [(skey "a", VInt 10); (skey "c", VInt 99)]].

(** The log [[1, 2, 3, 4]] at address 0 and the list [[5]] at 1. *)
Definition log_heap : heap :=
  [OList CHistory [VInt 1; VInt 2; VInt 3; VInt 4];
   OList CList [VInt 5]].

(** [StateDict({"x": 1})] at address 0 and an empty state at 1. *)
Definition empty_heap : heap :=
  [ODict CStateDict [(skey "x", VInt 1)]; ODict CStateDict []].

(** An ordinary class that declares no [update]. *)
Definition Plain_class : pyclass := PyClass "Plain" ["render"]%string.
Definition Plain_type : pytype := [Plain_class; object_class].

(** The abstract base classes after [Updatable.register(Plain)], run as
    the first thing after the module was loaded. *)
Definition registered_world : abc_world :=
  (Updatable_register Plain_type module_world).2.

Definition registered_tree : abc_node := abc_tree registered_world.

(** [A.copy().update(other)], returning the copy. *)
Definition copy_then_update (A other : value) : M value :=
  let* copy := call_copy A in
  call_update copy [other] [] ;;;
  ret copy.

(** ** The outcome of [update], in closed form *)

(** The items of the mapping [self.__class__(other, kwargs)] that [update]
    builds from a mapping with items [its] and keyword arguments. *)
Definition incoming_items (its : list (key * value))
    (kwargs : list (string * value)) : list (key * value) :=
  merge_items (merge_items [] its) (kwargs_items kwargs).

(** The items of [tmp] whose key is not a key of [items], in the order of
    [tmp]. *)
Definition missing_items (items tmp : list (key * value))
  : list (key * value) :=
  List.filter (fun kv => negb (dict_contains (fst kv) items)) tmp.

(** The value a key has after [update]: the one it had, else the one of
    the keyword arguments, else the one of the argument mapping. *)
Definition updated_value (items its : list (key * value))
    (kwargs : list (string * value)) (k : key) : option value :=
  match dict_get k items with
  | Some v => Some v
  | None =>
      match dict_get k (kwargs_items kwargs) with
      | Some v => Some v
      | None => dict_get k its
      end
  end.

(** [StateDict({"x": 1})] at address 0 and the mapping
    [{"x": 2, "y": 3}] at 1. *)
Definition merge_heap : heap :=
  [ODict CStateDict [(skey "x", VInt 1)];
   ODict CStateDict [(skey "x", VInt 2); (skey "y", VInt 3)]].

(** * Properties *)

(** ** Method resolution *)

Lemma super_update_resolves (c : dict_kind) :
  is_state c = true →
  super_lookup State_class (dict_kind_type c) "update" = Some Updatable_class.
Proof. destruct c; intros Hc; try discriminate; reflexivity. Qed.

Lemma super_copy_resolves (c : dict_kind) :
  is_state c = true →
  super_lookup StateDict_class (dict_kind_type c) "copy" = Some dict_class.
Proof. destruct c; intros Hc; try discriminate; reflexivity. Qed.

(** [State.update_item] runs the body of the abstract [Updatable.update]:
    it neither merges nor raises. *)
Lemma State_update_item_pass (c : dict_kind) (first second : value) (h : heap) :
  is_state c = true →
  State_update_item (dict_kind_type c) first second h = (Ok VNone, h).
Proof.
  intros Hc. unfold State_update_item.
  rewrite (super_update_resolves c Hc). reflexivity.
Qed.

(** ** Items *)

Lemma dict_get_In (k : key) (items : list (key * value)) :
  In k (dict_keys items) ↔ ∃ v, dict_get k items = Some v.
Proof.
  induction items as [|[k' v'] rest IH]; simpl.
  - split; [tauto | intros [v Hv]; discriminate].
  - destruct (decide (k' = k)) as [->|Hne].
    + split; eauto.
    + rewrite IH. split; [intros [?|?]; [contradiction | assumption] | auto].
Qed.

Lemma dict_contains_In (k : key) (items : list (key * value)) :
  dict_contains k items = true ↔ In k (dict_keys items).
Proof.
  rewrite dict_get_In. unfold dict_contains.
  destruct (dict_get k items); split; eauto; try discriminate.
  intros [v Hv]; discriminate.
Qed.

Lemma dict_get_set_eq (k : key) (v : value) (items : list (key * value)) :
  dict_get k (dict_set k v items) = Some v.
Proof.
  induction items as [|[k' v'] rest IH]; simpl.
  - destruct (decide (k = k)); congruence.
  - destruct (decide (k' = k)) as [->|Hne]; simpl.
    + destruct (decide (k = k)); congruence.
    + destruct (decide (k' = k)); congruence.
Qed.

Lemma dict_get_set_ne (k k' : key) (v : value) (items : list (key * value)) :
  k ≠ k' → dict_get k' (dict_set k v items) = dict_get k' items.
Proof.
  intros Hne. induction items as [|[k0 v0] rest IH]; simpl.
  - destruct (decide (k = k')); congruence.
  - destruct (decide (k0 = k)) as [->|Hk]; simpl.
    + destruct (decide (k = k')); congruence.
    + destruct (decide (k0 = k')); congruence.
Qed.

Lemma dict_keys_set (k k' : key) (v : value) (items : list (key * value)) :
  In k' (dict_keys (dict_set k v items)) ↔ k' = k ∨ In k' (dict_keys items).
Proof.
  rewrite !dict_get_In. destruct (decide (k = k')) as [->|Hne].
  - rewrite dict_get_set_eq. split; eauto.
  - rewrite dict_get_set_ne by assumption. split; [auto|].
    intros [Heq|H]; [congruence | assumption].
Qed.

(** Storing an item keeps the keys unique. *)
Lemma dict_set_NoDup (k : key) (v : value) (items : list (key * value)) :
  NoDup (dict_keys items) → NoDup (dict_keys (dict_set k v items)).
Proof.
  induction items as [|[k0 v0] rest IH]; simpl; intros Hnd.
  - constructor; [rewrite list_elem_of_In; simpl; tauto | constructor].
  - apply list.NoDup_cons in Hnd as [Hnotin Hnd].
    destruct (decide (k0 = k)) as [->|Hk]; simpl.
    + apply list.NoDup_cons; auto.
    + apply list.NoDup_cons. split; [|auto].
      rewrite list_elem_of_In in *. rewrite dict_keys_set.
      intros [Heq|Hin]; [congruence | contradiction].
Qed.

Lemma merge_items_nil (a : list (key * value)) : merge_items a [] = a.
Proof. reflexivity. Qed.

Lemma merge_items_cons (a b : list (key * value)) (k : key) (v : value) :
  merge_items a ((k, v) :: b) = merge_items (dict_set k v a) b.
Proof. reflexivity. Qed.

Lemma merge_items_keys (a b : list (key * value)) (k : key) :
  In k (dict_keys (merge_items a b)) ↔ In k (dict_keys a) ∨ In k (dict_keys b).
Proof.
  revert a. induction b as [|[k0 v0] b IH]; intros a.
  - rewrite merge_items_nil. simpl. tauto.
  - rewrite merge_items_cons, IH, dict_keys_set. simpl. intuition congruence.
Qed.

Lemma merge_items_get_other (a b : list (key * value)) (k : key) :
  dict_get k b = None → dict_get k (merge_items a b) = dict_get k a.
Proof.
  revert a. induction b as [|[k0 v0] b IH]; intros a Hk.
  - reflexivity.
  - simpl in Hk. destruct (decide (k0 = k)) as [->|Hne]; [discriminate|].
    rewrite merge_items_cons, IH by assumption.
    apply dict_get_set_ne; assumption.
Qed.

Lemma merge_items_get (a b : list (key * value)) (k : key) (v : value) :
  NoDup (dict_keys b) →
  dict_get k b = Some v → dict_get k (merge_items a b) = Some v.
Proof.
  revert a. induction b as [|[k0 v0] b IH]; intros a Hnd Hk.
  - discriminate.
  - simpl in Hnd. apply list.NoDup_cons in Hnd as [Hnotin Hnd].
    simpl in Hk. rewrite merge_items_cons.
    destruct (decide (k0 = k)) as [->|Hne].
    + inversion Hk; subst v0.
      rewrite merge_items_get_other; [apply dict_get_set_eq|].
      destruct (dict_get k b) eqn:E; [|reflexivity].
      exfalso. apply Hnotin. rewrite list_elem_of_In.
      apply dict_get_In. eauto.
    + apply IH; assumption.
Qed.

Lemma merge_items_NoDup (a b : list (key * value)) :
  NoDup (dict_keys a) → NoDup (dict_keys (merge_items a b)).
Proof.
  revert a. induction b as [|[k0 v0] b IH]; intros a Hnd; [assumption|].
  rewrite merge_items_cons. apply IH, dict_set_NoDup, Hnd.
Qed.

(** ** The heap *)

Lemma lookup_snoc_old (h : heap) (o x : obj) (a : addr) :
  h !! a = Some x → (h ++ [o]) !! a = Some x.
Proof. apply lookup_app_l_Some. Qed.

Lemma lookup_snoc_new (h : heap) (o : obj) : (h ++ [o]) !! length h = Some o.
Proof. apply list_lookup_middle. reflexivity. Qed.

Lemma insert_snoc (h : heap) (o o' : obj) :
  <[length h := o']> (h ++ [o]) = h ++ [o'].
Proof.
  replace (length h) with (length h + 0)%nat at 1 by lia.
  rewrite insert_app_r. reflexivity.
Qed.

Lemma preserved_refl (h : heap) : preserved h h.
Proof. intros a o Ha. exact Ha. Qed.

Lemma preserved_snoc (h : heap) (o : obj) : preserved h (h ++ [o]).
Proof. intros a x Ha. apply lookup_snoc_old, Ha. Qed.

Lemma preserved_trans (h1 h2 h3 : heap) :
  preserved h1 h2 → preserved h2 h3 → preserved h1 h3.
Proof. intros H12 H23 a o Ha. apply H23, H12, Ha. Qed.

(** ** Steps of the merge loop *)

Lemma contains_at (hh : heap) (self : addr) c acc (k : key) :
  hh !! self = Some (ODict c acc) →
  contains self k hh = (Ok (dict_contains k acc), hh).
Proof. intros H. unfold contains, bind, items_of, ret. rewrite H. reflexivity. Qed.

Lemma get_item_at (hh : heap) (a : addr) c its (k : key) (v : value) :
  hh !! a = Some (ODict c its) → dict_get k its = Some v →
  get_item a k hh = (Ok v, hh).
Proof.
  intros H Hk. unfold get_item, bind, items_of, ret. rewrite H, Hk. reflexivity.
Qed.

Lemma set_item_at (hh : heap) (self : addr) c acc (k : key) (v : value) :
  hh !! self = Some (ODict c acc) →
  set_item self k v hh = (Ok tt, <[self := ODict c (dict_set k v acc)]> hh).
Proof. intros H. unfold set_item. rewrite H. reflexivity. Qed.

(** On a colliding key the per-key merge of a mapping state does nothing:
    it reads [self[key]], runs [State.update_item], which passes, and so
    never reaches the overwrite of the [except] branch. *)
Lemma update_item_at (hh : heap) (self : addr) c acc (k : key) (cur val : value) :
  hh !! self = Some (ODict c acc) → is_state c = true →
  dict_get k acc = Some cur →
  StateDict__update_item self k val hh = (Ok VNone, hh).
Proof.
  intros H Hc Hk.
  unfold StateDict__update_item, bind, kind_of. rewrite H.
  unfold _update_item_with, try_except, bind.
  rewrite (get_item_at hh self c acc k cur H Hk).
  rewrite State_update_item_pass by assumption. reflexivity.
Qed.

Lemma add_item_at (hh : heap) (self : addr) c acc (k : key) (val : value) :
  hh !! self = Some (ODict c acc) → is_state c = true →
  call__add_item self k val hh =
    (Ok VNone,
     match c with
     | CView => hh
     | _ => <[self := ODict c (dict_set k val acc)]> hh
     end).
Proof.
  intros H Hc. unfold call__add_item, bind, kind_of. rewrite H.
  destruct c; try discriminate.
  - unfold StateDict__add_item, bind.
    rewrite (set_item_at hh self CStateDict acc k val H). reflexivity.
  - reflexivity.
Qed.

Lemma loop_inv_start c items its : loop_inv c items its items.
Proof. repeat split; auto. Qed.

Section MergeLoop.

Variables (h1 : heap) (self other : addr) (c co : dict_kind).
Variables (items its : list (key * value)).
Hypothesis Hself : h1 !! self = Some (ODict c items).
Hypothesis Hc : is_state c = true.
Hypothesis Hother : h1 !! other = Some (ODict co its).
Hypothesis Hne : self ≠ other.

Lemma loop_heap_self acc : <[self := ODict c acc]> h1 !! self = Some (ODict c acc).
Proof. apply list_lookup_insert_eq. eapply lookup_lt_Some, Hself. Qed.

Lemma loop_heap_other acc :
  <[self := ODict c acc]> h1 !! other = Some (ODict co its).
Proof. rewrite list_lookup_insert_ne by exact Hne. exact Hother. Qed.

Lemma loop_step (k : key) acc :
  In k (dict_keys its) → loop_inv c items its acc →
  ∃ acc', update_body self other k (<[self := ODict c acc]> h1)
          = (Ok tt, <[self := ODict c acc']> h1)
          ∧ loop_inv c items its acc'.
Proof.
  intros Hk (Hkeep & Hdom & Hview).
  apply dict_get_In in Hk as Hv. destruct Hv as [v Hv].
  unfold update_body, bind.
  rewrite (contains_at _ self c acc k (loop_heap_self acc)).
  rewrite (get_item_at _ other co its k v (loop_heap_other acc) Hv).
  unfold dict_contains. destruct (dict_get k acc) as [cur|] eqn:Hcur.
  - rewrite (update_item_at _ self c acc k cur v (loop_heap_self acc) Hc Hcur).
    exists acc. repeat split; auto.
  - rewrite (add_item_at _ self c acc k v (loop_heap_self acc) Hc).
    destruct c eqn:Ec; try discriminate.
    + exists (dict_set k v acc). rewrite list_insert_insert_eq.
      split; [reflexivity|]. repeat split.
      * intros k' v' Hk'. rewrite dict_get_set_ne; [auto|].
        intros ->. rewrite (Hkeep _ _ Hk') in Hcur. discriminate.
      * intros k' Hin. apply dict_keys_set in Hin as [->|Hin]; auto.
      * discriminate.
    + exists acc. repeat split; auto.
Qed.

Lemma loop_run (ks : list key) acc :
  (∀ k, In k ks → In k (dict_keys its)) → loop_inv c items its acc →
  ∃ acc', for_each ks (update_body self other) (<[self := ODict c acc]> h1)
          = (Ok tt, <[self := ODict c acc']> h1)
          ∧ loop_inv c items its acc'.
Proof.
  revert acc. induction ks as [|k ks IH]; intros acc Hks Hinv.
  - exists acc. split; [reflexivity | assumption].
  - destruct (loop_step k acc) as (acc1 & Hstep & Hinv1);
      [apply Hks; left; reflexivity | assumption |].
    destruct (IH acc1) as (acc2 & Hrun & Hinv2);
      [intros k' Hk'; apply Hks; right; assumption | assumption |].
    exists acc2. split; [|assumption].
    simpl. unfold bind at 1. rewrite Hstep. exact Hrun.
Qed.

(** [self.__update__(other)] for a mapping state [self] and a distinct
    mapping [other]: it returns [None]; only the object [self] changes, and
    there only by keys it did not have. *)
Lemma update_loop_spec :
  ∃ acc, StateDict___update__ self other h1
         = (Ok VNone, <[self := ODict c acc]> h1)
         ∧ loop_inv c items its acc.
Proof.
  destruct (loop_run (dict_keys its) items) as (acc & Hrun & Hinv);
    [auto | apply loop_inv_start |].
  exists acc. split; [|assumption].
  unfold StateDict___update__, bind at 1, items_of. rewrite Hother.
  unfold bind.
  rewrite (list_insert_id h1 self (ODict c items) Hself) in Hrun.
  rewrite Hrun. reflexivity.
Qed.

End MergeLoop.

(** ** Building the argument mapping *)

Lemma keeps_ret {A} (I : heap → Prop) (a : A) : keeps I (ret a).
Proof. intros hh Hh. exact Hh. Qed.

Lemma keeps_raise {A} (I : heap → Prop) (e : exn) : keeps I (@raise A e).
Proof. intros hh Hh. exact Hh. Qed.

Lemma keeps_bind {A B} (I : heap → Prop) (m : M A) (f : A → M B) :
  keeps I m → (∀ a, keeps I (f a)) → keeps I (bind m f).
Proof.
  intros Hm Hf hh Hh. unfold bind.
  specialize (Hm hh Hh). destruct (m hh) as [[a|e] h']; simpl in *.
  - apply Hf, Hm.
  - exact Hm.
Qed.

Lemma keeps_for_each {A} (I : heap → Prop) (xs : list A) (body : A → M unit) :
  (∀ x, keeps I (body x)) → keeps I (for_each xs body).
Proof.
  intros Hbody. induction xs as [|x xs IH]; simpl.
  - apply keeps_ret.
  - apply keeps_bind; [apply Hbody | intros _; exact IH].
Qed.

Lemma keeps_iterate (I : heap → Prop) (v : value) : keeps I (iterate v).
Proof.
  intros hh Hh. unfold iterate.
  destruct v as [| | |a]; simpl; try exact Hh.
  destruct (hh !! a) as [[]|]; exact Hh.
Qed.

Lemma keeps_hash_key (I : heap → Prop) (v : value) : keeps I (hash_key v).
Proof. intros hh Hh. destruct v; exact Hh. Qed.

Lemma filling_set_item (h : heap) (c : dict_kind) (k : key) (v : value) :
  keeps (filling h c) (set_item (length h) k v).
Proof.
  intros hh [its ->]. unfold set_item.
  rewrite lookup_snoc_new. simpl. rewrite insert_snoc. eexists; reflexivity.
Qed.

Lemma filling_merge (h : heap) (c : dict_kind) (b : addr) :
  keeps (filling h c) (dict_merge (length h) b).
Proof.
  intros hh [its ->]. unfold dict_merge.
  destruct (decide (length h = b)); [eexists; reflexivity|].
  rewrite lookup_snoc_new.
  destruct ((h ++ [ODict c its]) !! b) as [[]|]; simpl;
    try (eexists; reflexivity).
  rewrite insert_snoc. eexists; reflexivity.
Qed.

Lemma filling_merge_seq2 (h : heap) (c : dict_kind) (seq : value) :
  keeps (filling h c) (dict_merge_seq2 (length h) seq).
Proof.
  unfold dict_merge_seq2.
  apply keeps_bind; [apply keeps_iterate|]. intros elems.
  apply keeps_for_each. intros item.
  apply keeps_bind; [apply keeps_iterate|]. intros fast.
  destruct fast as [|k [|v [|]]]; try apply keeps_raise.
  apply keeps_bind; [apply keeps_hash_key|]. intros key.
  apply filling_set_item.
Qed.

Lemma filling_update_common (h : heap) (c : dict_kind) (args : list value)
    (kwargs : list (string * value)) :
  keeps (filling h c) (dict_update_common (length h) args kwargs).
Proof.
  unfold dict_update_common. apply keeps_bind.
  - destruct args as [|arg [|]]; [apply keeps_ret | | apply keeps_raise].
    intros hh Hh. destruct arg as [| | |b];
      try (apply filling_merge_seq2; exact Hh).
    destruct (hh !! b) as [[]|];
      [apply filling_merge | apply filling_merge_seq2 ..]; exact Hh.
  - intros _ hh [its ->]. rewrite lookup_snoc_new. simpl.
    rewrite insert_snoc. eexists; reflexivity.
Qed.

(** A constructor call allocates exactly one object, of the class called,
    and returns its address when it does not raise. *)
Lemma dict_new_cases (c : dict_kind) (args : list value)
    (kwargs : list (string * value)) (h : heap) :
  ∃ its, dict_new c args kwargs h = (Ok (length h), h ++ [ODict c its])
         ∨ ∃ e, dict_new c args kwargs h = (Raise e, h ++ [ODict c its]).
Proof.
  unfold dict_new, bind at 1, alloc.
  destruct (filling_update_common h c args kwargs (h ++ [ODict c []]))
    as [its Hits]; [eexists; reflexivity|].
  exists its. unfold bind.
  destruct (dict_update_common (length h) args kwargs (h ++ [ODict c []]))
    as [[u|e] h']; simpl in Hits; subst h'.
  - left. reflexivity.
  - right. exists e. reflexivity.
Qed.

(** Called on a mapping, the constructor copies its items. *)
Lemma dict_new_mapping (c cb : dict_kind) (b : addr) its
    (kwargs : list (string * value)) (h : heap) :
  h !! b = Some (ODict cb its) →
  dict_new c [VRef b] kwargs h
  = (Ok (length h),
     h ++ [ODict c (merge_items (merge_items [] its) (kwargs_items kwargs))]).
Proof.
  intros Hb. unfold dict_new, bind at 1, alloc.
  unfold bind at 1. unfold dict_update_common, bind at 1.
  rewrite (lookup_snoc_old h _ _ b Hb).
  unfold dict_merge.
  destruct (decide (length h = b)) as [<-|Hne].
  - apply lookup_lt_Some in Hb. lia.
  - rewrite lookup_snoc_new, (lookup_snoc_old h _ _ b Hb). simpl.
    rewrite insert_snoc, lookup_snoc_new, insert_snoc. reflexivity.
Qed.

(** Called without positional argument, it keeps the keyword arguments. *)
Lemma dict_new_noargs (c : dict_kind) (kwargs : list (string * value))
    (h : heap) :
  dict_new c [] kwargs h
  = (Ok (length h), h ++ [ODict c (merge_items [] (kwargs_items kwargs))]).
Proof.
  unfold dict_new, bind at 1, alloc.
  unfold bind at 1. unfold dict_update_common, bind at 1. simpl.
  rewrite lookup_snoc_new, insert_snoc. reflexivity.
Qed.

(** ** [update] on a mapping state *)

Section Update.

Variables (h : heap) (self : addr) (c : dict_kind).
Variables (items : list (key * value)).
Variables (args : list value) (kwargs : list (string * value)).
Hypothesis Hself : h !! self = Some (ODict c items).
Hypothesis Hc : is_state c = true.

(** When the argument mapping could be built, [update] returns [None]; the
    heap gained that mapping, and [self] gained at most keys it lacked. *)
Lemma StateDict_update_built its :
  dict_new c args kwargs h = (Ok (length h), h ++ [ODict c its]) →
  ∃ acc, StateDict_update self args kwargs h
         = (Ok VNone, <[self := ODict c acc]> (h ++ [ODict c its]))
         ∧ loop_inv c items its acc.
Proof.
  intros Hnew.
  assert (Hlt : (self < length h)%nat) by (eapply lookup_lt_Some, Hself).
  destruct (update_loop_spec (h ++ [ODict c its]) self (length h) c c items its)
    as (acc & Hrun & Hinv);
    [apply lookup_snoc_old, Hself | exact Hc | apply lookup_snoc_new | lia |].
  exists acc. split; [|exact Hinv].
  unfold StateDict_update, bind at 1, kind_of. rewrite Hself.
  destruct c; try discriminate; unfold bind; rewrite Hnew; exact Hrun.
Qed.

(** When building the argument mapping raises, so does [update], and
    [self] was not touched. *)
Lemma StateDict_update_unbuilt e its :
  dict_new c args kwargs h = (Raise e, h ++ [ODict c its]) →
  StateDict_update self args kwargs h = (Raise e, h ++ [ODict c its]).
Proof.
  intros Hnew. unfold StateDict_update, bind at 1, kind_of. rewrite Hself.
  destruct c; try discriminate; unfold bind; rewrite Hnew; reflexivity.
Qed.

(** In every case the objects other than [self] are as they were, and
    the items [self] had are still there with their values. *)
Lemma StateDict_update_frame :
  ∃ acc h',
    (StateDict_update self args kwargs h).2 = h'
    ∧ h' !! self = Some (ODict c acc)
    ∧ (∀ a o, a ≠ self → h !! a = Some o → h' !! a = Some o)
    ∧ (∀ k v, dict_get k items = Some v → dict_get k acc = Some v)
    ∧ (c = CView → acc = items).
Proof.
  assert (Hlt : (self < length h)%nat) by (eapply lookup_lt_Some, Hself).
  destruct (dict_new_cases c args kwargs h) as [its [Hnew|[e Hnew]]].
  - destruct (StateDict_update_built its Hnew) as (acc & Hrun & Hk & _ & Hv).
    exists acc, (<[self := ODict c acc]> (h ++ [ODict c its])).
    rewrite Hrun. repeat split; auto.
    + apply list_lookup_insert_eq. rewrite length_app. lia.
    + intros a o Hne Ha. rewrite list_lookup_insert_ne by auto.
      apply lookup_snoc_old, Ha.
  - exists items, (h ++ [ODict c its]).
    rewrite (StateDict_update_unbuilt e its Hnew). repeat split; auto.
    + apply lookup_snoc_old, Hself.
    + intros a o _ Ha. apply lookup_snoc_old, Ha.
Qed.

End Update.

(** [update] returns [None] whenever it returns. *)
Lemma StateDict_update_returns_None self args kwargs (h h' : heap) (r : value) :
  StateDict_update self args kwargs h = (Ok r, h') → r = VNone.
Proof.
  unfold StateDict_update, bind at 1.
  destruct (kind_of self h) as [[c|e] h1]; [|discriminate].
  assert (Hloop : ∀ other hh, StateDict___update__ self other hh = (Ok r, h') →
                              r = VNone).
  { intros other hh. unfold StateDict___update__, bind at 1.
    destruct (items_of other hh) as [[its|e] h2]; [|discriminate].
    unfold bind.
    destruct (for_each (dict_keys its) (update_body self other) h2)
      as [[u|e] h3]; [|discriminate].
    unfold ret. congruence. }
  destruct c; [discriminate | |]; unfold bind;
    destruct (dict_new _ args kwargs h1) as [[other|e] h2];
    try discriminate; apply Hloop.
Qed.

Lemma History_update_returns_None self other (h h' : heap) (r : value) :
  History_update self other h = (Ok r, h') → r = VNone.
Proof.
  unfold History_update, bind.
  destruct (list_extend self other h) as [[u|e] h1]; [|discriminate].
  unfold ret. congruence.
Qed.

Lemma History_push_returns_None self item (h h' : heap) (r : value) :
  History_push self item h = (Ok r, h') → r = VNone.
Proof.
  unfold History_push, bind.
  destruct (History_update self item h) as [[u|e] h1]; [|discriminate].
  unfold ret. congruence.
Qed.

(** ** [copy] and the merge operator *)

(** [copy] of a mapping state allocates a plain [dict] with the same
    items. *)
Lemma call_copy_state (h : heap) (A : addr) c items :
  h !! A = Some (ODict c items) → is_state c = true →
  call_copy (VRef A) h = (Ok (VRef (length h)), h ++ [ODict CDict items]).
Proof.
  intros HA Hc. unfold call_copy. rewrite HA.
  destruct c; try discriminate;
    unfold StateDict_copy, bind at 1, kind_of; rewrite HA;
    rewrite super_copy_resolves by reflexivity; simpl;
    unfold dict_copy, bind, items_of; rewrite HA; reflexivity.
Qed.

(** [update] of a plain [dict] with a mapping stores the items of the
    mapping, whatever they are. *)
Lemma dict_update_mapping (h : heap) (d b : addr) c cb items its :
  h !! d = Some (ODict c items) → h !! b = Some (ODict cb its) → d ≠ b →
  dict_update d [VRef b] [] h
  = (Ok VNone, <[d := ODict c (merge_items items its)]> h).
Proof.
  intros Hd Hb Hne.
  assert (Hlt : (d < length h)%nat) by (eapply lookup_lt_Some, Hd).
  unfold dict_update, bind at 1. unfold dict_update_common, bind at 1.
  rewrite Hb. unfold dict_merge.
  destruct (decide (d = b)); [contradiction|]. rewrite Hd, Hb.
  rewrite list_lookup_insert_eq by assumption. simpl.
  rewrite list_insert_insert_eq. reflexivity.
Qed.

(** The merge operator on a mapping state and a mapping: the result is a
    new plain [dict]; the heap is otherwise as before. *)
Lemma State_or_spec (h : heap) (A B : addr) cA cB itemsA itemsB :
  h !! A = Some (ODict cA itemsA) → is_state cA = true →
  h !! B = Some (ODict cB itemsB) →
  State___or__ (VRef A) (VRef B) h
  = (Ok (VRef (length h)), h ++ [ODict CDict (merge_items itemsA itemsB)]).
Proof.
  intros HA Hc HB.
  assert (HltB : (B < length h)%nat) by (eapply lookup_lt_Some, HB).
  unfold State___or__, bind at 1.
  rewrite (call_copy_state h A cA itemsA HA Hc).
  unfold bind. unfold call_update. rewrite lookup_snoc_new.
  rewrite (dict_update_mapping (h ++ [ODict CDict itemsA]) (length h) B
             CDict cB itemsA itemsB);
    [| apply lookup_snoc_new | apply lookup_snoc_old, HB | lia].
  rewrite insert_snoc. reflexivity.
Qed.

(** ** The capability check *)

Lemma pyclass_eqb_eq (K L : pyclass) : pyclass_eqb K L = true → K = L.
Proof.
  destruct K as [n d], L as [n' d']. unfold pyclass_eqb. simpl.
  intros H. apply andb_true_iff in H as [Hn Hd].
  apply String.eqb_eq in Hn. apply bool_decide_eq_true in Hd. congruence.
Qed.

Lemma pyclass_eqb_refl (K : pyclass) : pyclass_eqb K K = true.
Proof.
  unfold pyclass_eqb. rewrite String.eqb_refl. simpl.
  apply bool_decide_eq_true. reflexivity.
Qed.

Lemma existsb_eqb_In (K : pyclass) (C : pytype) :
  existsb (pyclass_eqb K) C = true ↔ In K C.
Proof.
  rewrite existsb_exists. split.
  - intros (L & HL & Heq). apply pyclass_eqb_eq in Heq. congruence.
  - intros HK. exists K. split; [assumption | apply pyclass_eqb_refl].
Qed.

Lemma str_in_In (name : string) (names : list string) :
  str_in name names = true ↔ In name names.
Proof.
  unfold str_in. rewrite existsb_exists. split.
  - intros (n & Hn & Heq). apply String.eqb_eq in Heq. congruence.
  - intros Hn. exists name. split; [assumption | apply String.eqb_refl].
Qed.

Lemma exposes_update_hook (C : pytype) :
  existsb (fun Sup => defines Sup "update") C = true ↔ exposes C "update".
Proof.
  rewrite existsb_exists. unfold exposes, defines.
  split; intros (Sup & HSup & Hd); exists Sup; split; auto;
    apply str_in_In; assumption.
Qed.

(** Induction on the tree of abstract base classes. *)
Lemma abc_node_induction (P : abc_node → Prop) :
  (∀ cls registry cache negative version subs,
     Forall P subs → P (AbcNode cls registry cache negative version subs)) →
  ∀ t, P t.
Proof.
  intros Hnode. fix IH 1. intros [cls registry cache negative version subs].
  apply Hnode. revert subs. fix IHsubs 1. intros [|s subs].
  - constructor.
  - constructor; [apply IH | apply IHsubs].
Qed.

Lemma hook_cases (cls : pyclass) (C : pytype) :
  (Updatable___subclasshook__ cls C = Some true
   ∧ cls = Updatable_class ∧ exposes C "update")
  ∨ (Updatable___subclasshook__ cls C = None
     ∧ (cls = Updatable_class → ¬ exposes C "update")).
Proof.
  unfold Updatable___subclasshook__.
  destruct (pyclass_eqb cls Updatable_class) eqn:Ecls.
  - apply pyclass_eqb_eq in Ecls.
    destruct (existsb (fun Sup => defines Sup "update") C) eqn:E.
    + left. repeat split; [assumption|]. apply exposes_update_hook, E.
    + right. split; [reflexivity|]. intros _ Hexp.
      apply exposes_update_hook in Hexp. congruence.
  - right. split; [reflexivity|]. intros ->.
    rewrite pyclass_eqb_refl in Ecls. discriminate.
Qed.

Lemma registry_hit_In (registry : list pyclass) (C : pytype) :
  registry_hit registry C = true ↔ ∃ rcls, In rcls registry ∧ In rcls C.
Proof.
  unfold registry_hit. rewrite existsb_exists.
  split; intros (r & Hr & H); exists r; split; auto; apply existsb_eqb_In, H.
Qed.

Lemma in_flat_map_tree {B} (f : abc_node → list B) (subs : list abc_node) (x : B) :
  In x (flat_map f subs) ↔ ∃ s, In s subs ∧ In x (f s).
Proof. apply in_flat_map. Qed.

(** What [issubclass(C, cls)] answers, caches aside: [C] exposes [update]
    and [Updatable] is in the tree, or a class of the tree is in the
    [__mro__] of [C], or a class registered in the tree is. *)
Lemma abc_answer_iff (t : abc_node) (C : pytype) :
  abc_answer t C = true ↔
    (In Updatable_class (tree_classes t) ∧ exposes C "update")
    ∨ (∃ K, In K (tree_classes t) ∧ In K C)
    ∨ registered t C.
Proof.
  induction t as [cls registry cache negative version subs IH]
    using abc_node_induction.
  assert (Hsubs : existsb (fun s => abc_answer s C) subs = true ↔
            ∃ s, In s subs ∧
              ((In Updatable_class (tree_classes s) ∧ exposes C "update")
               ∨ (∃ K, In K (tree_classes s) ∧ In K C)
               ∨ registered s C)).
  { rewrite existsb_exists. rewrite Forall_forall in IH.
    split; intros (s & Hs & H); exists s; split; auto;
      apply (IH s Hs); exact H. }
  unfold registered in *. simpl.
  destruct (hook_cases cls C) as [(-> & -> & Hexp)|(-> & Hnot)].
  - split; [|reflexivity]. intros _. left. auto.
  - rewrite !orb_true_iff, existsb_eqb_In, registry_hit_In, Hsubs.
    setoid_rewrite in_app_iff. setoid_rewrite in_flat_map.
    split.
    + intros [[Hd|(r & Hr & HrC)]|(s & Hs & [[HU He]|[(K & HK & HKC)|(r & Hr & HrC)]])].
      * right. left. exists cls. auto.
      * right. right. exists r. auto.
      * left. split; [right; eauto | exact He].
      * right. left. exists K. split; [right; eauto | exact HKC].
      * right. right. exists r. split; [right; eauto | exact HrC].
    + intros [[[HU|(s & Hs & HU)] He]|[(K & [HK|(s & Hs & HK)] & HKC)|(r & [Hr|(s & Hs & Hr)] & HrC)]].
      * exfalso. apply Hnot; auto.
      * right. exists s. split; [exact Hs|]. left. auto.
      * subst K. left. left. exact HKC.
      * right. exists s. split; [exact Hs|]. right. left. eauto.
      * left. right. eauto.
      * right. exists s. split; [exact Hs|]. right. right. eauto.
Qed.

Lemma subs_ok_Forall (counter : nat) (subs : list abc_node) :
  fold_right (fun s P => cache_ok counter s ∧ P) True subs
  ↔ Forall (cache_ok counter) subs.
Proof.
  induction subs as [|s subs IH]; simpl.
  - split; auto.
  - rewrite IH. split.
    + intros [H1 H2]. constructor; assumption.
    + intros H. inversion H; subst. auto.
Qed.

Lemma abc_answer_erase (t : abc_node) (D : pytype) :
  abc_answer (abc_erase t) D = abc_answer t D.
Proof.
  induction t as [cls registry cache negative version subs IH]
    using abc_node_induction.
  simpl. destruct (Updatable___subclasshook__ cls D); [reflexivity|].
  f_equal. induction IH as [|s subs Hs _ IHsubs]; simpl; [reflexivity|].
  rewrite Hs, IHsubs. reflexivity.
Qed.

Lemma abc_answer_same (t t' : abc_node) (D : pytype) :
  abc_erase t' = abc_erase t → abc_answer t' D = abc_answer t D.
Proof.
  intros H. rewrite <- (abc_answer_erase t'), H. apply abc_answer_erase.
Qed.

Lemma existsb_answer_same (subs subs' : list abc_node) (D : pytype) :
  map abc_erase subs' = map abc_erase subs →
  existsb (fun s => abc_answer s D) subs'
  = existsb (fun s => abc_answer s D) subs.
Proof.
  revert subs'. induction subs as [|s subs IH]; intros [|s' subs'] H;
    try discriminate; [reflexivity|].
  simpl in *. inversion H as [[Hs Hrest]].
  rewrite (abc_answer_same s s' D Hs), (IH subs' Hrest). reflexivity.
Qed.

Lemma mem_type_In (C : pytype) (s : list pytype) :
  mem_type C s = true ↔ In C s.
Proof.
  unfold mem_type. rewrite bool_decide_eq_true. apply list_elem_of_In.
Qed.

(** One subclass after the other: the scan answers what the subclasses
    answer, keeps their caches right and changes nothing else. *)
Lemma scan_first_spec (counter : nat) (C : pytype) (subs : list abc_node) :
  Forall (fun s => cache_ok counter s →
            (abc_subclasscheck counter s C).1 = abc_answer s C
            ∧ cache_ok counter (abc_subclasscheck counter s C).2
            ∧ abc_erase (abc_subclasscheck counter s C).2 = abc_erase s) subs →
  Forall (cache_ok counter) subs →
  (scan_first (fun t => abc_subclasscheck counter t C) subs).1
  = existsb (fun s => abc_answer s C) subs
  ∧ Forall (cache_ok counter)
      (scan_first (fun t => abc_subclasscheck counter t C) subs).2
  ∧ map abc_erase (scan_first (fun t => abc_subclasscheck counter t C) subs).2
    = map abc_erase subs.
Proof.
  intros IH Hok. induction IH as [|s subs Hs _ IHsubs]; simpl.
  - repeat split; constructor.
  - inversion Hok as [|? ? Hoks Hokrest]; subst.
    destruct (Hs Hoks) as (Hb & Hok' & Her).
    destruct (abc_subclasscheck counter s C) as [b s'] eqn:E. simpl in *.
    rewrite <- Hb. destruct b; simpl.
    + repeat split; [constructor; assumption | rewrite Her; reflexivity].
    + destruct (IHsubs Hokrest) as (Hb2 & Hok2 & Her2).
      destruct (scan_first (fun t => abc_subclasscheck counter t C) subs)
        as [b' rest'] eqn:E2. simpl in *.
      repeat split; [assumption | constructor; assumption |].
      rewrite Her, Her2. reflexivity.
Qed.

(** A check answers what the classes and the registries say, keeps the
    caches right, and changes nothing but the caches. *)
Lemma abc_subclasscheck_spec (counter : nat) (t : abc_node) (C : pytype) :
  cache_ok counter t →
  (abc_subclasscheck counter t C).1 = abc_answer t C
  ∧ cache_ok counter (abc_subclasscheck counter t C).2
  ∧ abc_erase (abc_subclasscheck counter t C).2 = abc_erase t.
Proof.
  induction t as [cls registry cache negative version subs IH]
    using abc_node_induction.
  intros Hok. pose proof Hok as (Hcache & Hver & Hneg & Hsubs).
  apply subs_ok_Forall in Hsubs.
  cbn [abc_subclasscheck].
  destruct (mem_type C cache) eqn:Ecache.
  { apply mem_type_In in Ecache. cbn [fst snd].
    split; [symmetry; apply Hcache, Ecache | split; [exact Hok | reflexivity]]. }
  assert (Hncache : ¬ In C cache).
  { intros H. apply mem_type_In in H. congruence. }
  set (stale := (version <? counter)%nat).
  set (negative1 := if stale then [] else negative).
  set (version1 := if stale then counter else version).
  assert (Hneg1 : (counter ≤ version1)%nat →
            ∀ D, In D negative1 →
                 abc_answer (AbcNode cls registry cache negative version subs) D
                 = false).
  { unfold negative1, version1, stale.
    destruct (Nat.ltb_spec version counter); intros Hle D HD;
      [destruct HD | apply Hneg; assumption]. }
  assert (Hver1 : (version1 ≤ counter)%nat).
  { unfold version1, stale. destruct (Nat.ltb_spec version counter); lia. }
  destruct (negb stale && mem_type C negative) eqn:Enegative.
  { apply andb_true_iff in Enegative as [Hstale Hin].
    apply mem_type_In in Hin. unfold stale in Hstale.
    destruct (Nat.ltb_spec version counter); [discriminate|].
    cbn [fst snd].
    split; [symmetry; apply Hneg; assumption | split; [exact Hok | reflexivity]]. }
  (* the two ways out, for subclasses [subs'] equal to [subs] but for
     their caches *)
  assert (Hhit : ∀ subs',
            Forall (cache_ok counter) subs' →
            map abc_erase subs' = map abc_erase subs →
            abc_answer (AbcNode cls registry cache negative version subs) C
            = true →
            true = abc_answer (AbcNode cls registry cache negative version subs) C
            ∧ cache_ok counter
                (AbcNode cls registry (C :: cache) negative1 version1 subs')
            ∧ abc_erase
                (AbcNode cls registry (C :: cache) negative1 version1 subs')
              = abc_erase (AbcNode cls registry cache negative version subs)).
  { intros subs' Hok' Her Hans. split; [congruence|]. split.
    - assert (Hsame : ∀ D,
                abc_answer
                  (AbcNode cls registry (C :: cache) negative1 version1 subs') D
                = abc_answer
                    (AbcNode cls registry cache negative version subs) D).
      { intros D. apply abc_answer_same. simpl. rewrite Her. reflexivity. }
      split; [|split; [exact Hver1|split]].
      + intros D [<-|HD]; rewrite Hsame; [exact Hans | apply Hcache, HD].
      + intros Hle D HD. rewrite Hsame. apply Hneg1; assumption.
      + apply subs_ok_Forall, Hok'.
    - simpl. rewrite Her. reflexivity. }
  assert (Hmiss : ∀ subs',
            Forall (cache_ok counter) subs' →
            map abc_erase subs' = map abc_erase subs →
            abc_answer (AbcNode cls registry cache negative version subs) C
            = false →
            false = abc_answer (AbcNode cls registry cache negative version subs) C
            ∧ cache_ok counter
                (AbcNode cls registry cache (C :: negative1) version1 subs')
            ∧ abc_erase
                (AbcNode cls registry cache (C :: negative1) version1 subs')
              = abc_erase (AbcNode cls registry cache negative version subs)).
  { intros subs' Hok' Her Hans. split; [congruence|]. split.
    - assert (Hsame : ∀ D,
                abc_answer
                  (AbcNode cls registry cache (C :: negative1) version1 subs') D
                = abc_answer
                    (AbcNode cls registry cache negative version subs) D).
      { intros D. apply abc_answer_same. simpl. rewrite Her. reflexivity. }
      split; [|split; [exact Hver1|split]].
      + intros D HD. rewrite Hsame. apply Hcache, HD.
      + intros Hle D [<-|HD]; rewrite Hsame;
          [exact Hans | apply Hneg1; assumption].
      + apply subs_ok_Forall, Hok'.
    - simpl. rewrite Her. reflexivity. }
  cbn [abc_answer] in Hhit, Hmiss |- *.
  destruct (Updatable___subclasshook__ cls C) as [[|]|] eqn:Ehook.
  - apply Hhit; auto.
  - apply Hmiss; auto.
  - destruct (existsb (pyclass_eqb cls) C) eqn:Edirect;
      [apply Hhit; auto|].
    destruct (registry_hit registry C) eqn:Ereg; [apply Hhit; auto|].
    destruct (scan_first_spec counter C subs IH Hsubs) as (Hb & Hok' & Her).
    destruct (scan_first (fun t => abc_subclasscheck counter t C) subs)
      as [found subs'] eqn:Escan.
    simpl in Hb, Hok', Her. simpl.
    destruct found; [apply Hhit | apply Hmiss]; auto.
Qed.

Lemma node_class_erase (t : abc_node) : node_class (abc_erase t) = node_class t.
Proof. destruct t. reflexivity. Qed.

Lemma tree_registries_erase (t : abc_node) :
  tree_registries (abc_erase t) = tree_registries t.
Proof.
  induction t as [cls registry cache negative version subs IH]
    using abc_node_induction.
  simpl. f_equal. induction IH as [|s subs Hs _ IHsubs]; simpl; [reflexivity|].
  rewrite Hs, IHsubs. reflexivity.
Qed.

(** In a sound state, [is_updatable] answers what the classes and the
    registries say. *)
Lemma State_is_updatable_answer (cls D : pytype) (w : abc_world) :
  cache_ok (abc_invalidation_counter w) (abc_tree w) →
  (State_is_updatable cls D w).1 = abc_answer (abc_tree w) D.
Proof.
  intros Hok. unfold State_is_updatable, issubclass_Updatable.
  destruct (abc_subclasscheck_spec _ _ D Hok) as (Hb & _).
  destruct (abc_subclasscheck (abc_invalidation_counter w) (abc_tree w) D).
  exact Hb.
Qed.

(** Below [Updatable], the answer is: [C] exposes [update], or inherits
    from a registered class. *)
Lemma abc_answer_Updatable (t : abc_node) (C : pytype) :
  node_class t = Updatable_class → inherits_Updatable t C →
  abc_answer t C = true ↔ exposes C "update" ∨ registered t C.
Proof.
  intros Hroot Hinh. rewrite abc_answer_iff. split.
  - intros [[_ He]|[(K & HK & HKC)|Hr]]; auto.
    left. exists Updatable_class. split; [|simpl; auto].
    apply (Hinh K HK HKC).
  - intros [He|Hr]; auto. left. split; [|exact He].
    destruct t. simpl in *. auto.
Qed.

Lemma module_world_ok : world_ok module_world.
Proof. split; [reflexivity|]. simpl. intuition. Qed.

Lemma cache_ok_later (counter : nat) (t : abc_node) :
  cache_ok counter t → cache_ok (S counter) t.
Proof.
  induction t as [cls registry cache negative version subs IH]
    using abc_node_induction.
  intros (Hcache & Hver & _ & Hsubs). split; [exact Hcache|].
  split; [lia|]. split; [intros Hle; lia|].
  apply subs_ok_Forall. apply subs_ok_Forall in Hsubs.
  rewrite Forall_forall in *. intros s Hs. apply IH; auto.
Qed.

(** Registration keeps the caches right: cached subclasses stay
    subclasses, and the negative caches are out of date from then on. *)
Lemma Updatable_register_ok (subclass : pytype) (w : abc_world) :
  world_ok w → world_ok (Updatable_register subclass w).2.
Proof.
  intros [Hroot Hok]. unfold Updatable_register.
  destruct subclass as [|K rest]; [split; assumption|].
  unfold issubclass_Updatable.
  destruct (abc_subclasscheck_spec _ _ (K :: rest) Hok) as (_ & Hok1 & Her).
  destruct (abc_subclasscheck (abc_invalidation_counter w) (abc_tree w)
              (K :: rest)) as [already t1].
  cbn [fst snd] in *.
  assert (Hroot1 : node_class t1 = Updatable_class).
  { rewrite <- node_class_erase, Her, node_class_erase. exact Hroot. }
  destruct already; [split; assumption|].
  destruct (existsb (pyclass_eqb K) Updatable_type); [split; assumption|].
  destruct t1 as [cls registry cache negative version subs].
  cbn [fst snd abc_tree abc_invalidation_counter].
  split; [exact Hroot1|].
  destruct Hok1 as (Hcache & Hver & _ & Hsubs).
  cbn [abc_tree abc_invalidation_counter cache_ok].
  split; [|split; [lia|split; [intros Hle; lia|]]].
  - intros D HD. specialize (Hcache D HD). cbn [abc_answer] in Hcache |- *.
    destruct (Updatable___subclasshook__ cls D); [exact Hcache|].
    apply orb_true_iff in Hcache as [Hcache|Hcache];
      [|rewrite Hcache; apply orb_true_r].
    apply orb_true_iff in Hcache as [Hcache|Hcache];
      [rewrite Hcache; reflexivity|].
    unfold registry_hit in *. cbn [existsb]. rewrite Hcache.
    rewrite !orb_true_r. reflexivity.
  - apply subs_ok_Forall. apply subs_ok_Forall in Hsubs.
    eapply Forall_impl; [|exact Hsubs]. intros s. apply cache_ok_later.
Qed.

Lemma registered_world_ok : world_ok registered_world.
Proof. apply Updatable_register_ok, module_world_ok. Qed.

Lemma Plain_inherits : inherits_Updatable registered_tree Plain_type.
Proof.
  intros K HK HC. vm_compute in HK. simpl in HC.
  repeat (destruct HK as [<-|HK]; [intuition discriminate|]). destruct HK.
Qed.

(** C9, as the code has it.  For a class [cls] of the mapping-state family
    and every type [C], in a state [w] of the abstract base classes whose
    caches hold what was computed: [is_updatable(C)] is true exactly when
    [C] exposes [update] or inherits from a class registered with
    [Updatable] or with a class below it; so, with nothing registered,
    exactly when [C] exposes [update].  [is_atomic(C)] is the negation.
    The check changes the caches only: the classes, the registries and the
    counter stay, the caches stay right, and every later answer is what it
    would have been. *)
Theorem is_updatable_characterised (cls C : pytype) (w : abc_world) :
  In cls state_family → world_ok w → inherits_Updatable (abc_tree w) C →
  ((State_is_updatable cls C w).1 = true
   ↔ exposes C "update" ∨ registered (abc_tree w) C)
  ∧ (tree_registries (abc_tree w) = [] →
     ((State_is_updatable cls C w).1 = true ↔ exposes C "update"))
  ∧ Updater_is_atomic cls C w
    = (Some (negb (State_is_updatable cls C w).1),
       (State_is_updatable cls C w).2)
  ∧ world_ok (State_is_updatable cls C w).2
  ∧ abc_invalidation_counter (State_is_updatable cls C w).2
    = abc_invalidation_counter w
  ∧ abc_erase (abc_tree (State_is_updatable cls C w).2)
    = abc_erase (abc_tree w)
  ∧ (∀ cls' D, (State_is_updatable cls' D (State_is_updatable cls C w).2).1
               = (State_is_updatable cls' D w).1).
Proof.
  intros Hcls [Hroot Hok] Hinh.
  assert (Hiff : (State_is_updatable cls C w).1 = true
                 ↔ exposes C "update" ∨ registered (abc_tree w) C).
  { rewrite (State_is_updatable_answer cls C w Hok).
    apply abc_answer_Updatable; assumption. }
  assert (Hafter : cache_ok (abc_invalidation_counter w)
                     (abc_tree (State_is_updatable cls C w).2)
                   ∧ abc_invalidation_counter (State_is_updatable cls C w).2
                     = abc_invalidation_counter w
                   ∧ abc_erase (abc_tree (State_is_updatable cls C w).2)
                     = abc_erase (abc_tree w)).
  { unfold State_is_updatable, issubclass_Updatable.
    destruct (abc_subclasscheck_spec _ _ C Hok) as (_ & Hok' & Her).
    destruct (abc_subclasscheck (abc_invalidation_counter w) (abc_tree w) C).
    simpl in *. auto. }
  destruct Hafter as (Hok' & Hcounter & Her).
  split; [exact Hiff|]. split.
  { intros Hnone. rewrite Hiff. unfold registered. rewrite Hnone.
    split; [intros [H|(r & [] & _)]; exact H | auto]. }
  split.
  { simpl in Hcls. destruct Hcls as [<-|[<-|[<-|[]]]];
      unfold Updater_is_atomic;
      [replace (type_lookup State_type "is_updatable")
         with (Some State_class) by reflexivity
      |replace (type_lookup StateDict_type "is_updatable")
         with (Some State_class) by reflexivity
      |replace (type_lookup View_type "is_updatable")
         with (Some State_class) by reflexivity];
      rewrite pyclass_eqb_refl; unfold State_is_updatable;
      destruct (issubclass_Updatable C w); reflexivity. }
  split.
  { split.
    - rewrite <- node_class_erase, Her, node_class_erase. exact Hroot.
    - rewrite Hcounter. exact Hok'. }
  split; [exact Hcounter|]. split; [exact Her|].
  intros cls' D.
  rewrite (State_is_updatable_answer cls' D w Hok).
  rewrite (State_is_updatable_answer cls' D _);
    [apply abc_answer_same, Her | rewrite Hcounter; exact Hok'].
Qed.

Lemma is_updatable_characterised_witness :
  In StateDict_type state_family ∧ world_ok registered_world
  ∧ inherits_Updatable (abc_tree registered_world) Plain_type
  ∧ ((State_is_updatable StateDict_type Plain_type registered_world).1 = true
     ↔ exposes Plain_type "update"
       ∨ registered (abc_tree registered_world) Plain_type)
  ∧ world_ok (State_is_updatable StateDict_type Plain_type registered_world).2.
Proof.
  assert (Hin : In StateDict_type state_family) by (simpl; tauto).
  pose proof (is_updatable_characterised StateDict_type Plain_type
                registered_world Hin registered_world_ok Plain_inherits)
    as (H1 & _ & _ & H4 & _).
  exact (conj Hin (conj registered_world_ok (conj Plain_inherits (conj H1 H4)))).
Defined.

(** C9, as worded, fails once a class is registered: after
    [Updatable.register(Plain)], [is_updatable(Plain)] is true although no
    class of the [__mro__] of [Plain] binds [update]. *)
Lemma is_updatable_of_registered_class :
  ¬ ((State_is_updatable StateDict_type Plain_type registered_world).1 = true
     ↔ exposes Plain_type "update").
Proof.
  intros [Honly _]. specialize (Honly eq_refl).
  apply exposes_update_hook in Honly. discriminate.
Qed.

(** ** Frozen keys *)

(** C2.  For every frozen-key state [F] and every argument list of
    [update], the key set of [F] after [F.update(...)] is the key set it
    had before, whether the call returns or raises; with a mapping as
    argument the call returns [None]. *)
Theorem View_update_keeps_keys (h : heap) (F : addr)
    (items : list (key * value)) (args : list value)
    (kwargs : list (string * value)) :
  h !! F = Some (ODict CView items) →
  dict_keys <$> items_at (StateDict_update F args kwargs h).2 F
  = Some (dict_keys items)
  ∧ (∀ b cb its, h !! b = Some (ODict cb its) →
       (StateDict_update F [VRef b] kwargs h).1 = Ok VNone).
Proof.
  intros HF. split.
  - destruct (StateDict_update_frame h F CView items args kwargs HF eq_refl)
      as (acc & h' & -> & Hacc & _ & _ & Hview).
    unfold items_at. rewrite Hacc, (Hview eq_refl). reflexivity.
  - intros b cb its Hb.
    destruct (StateDict_update_built h F CView items [VRef b] kwargs HF eq_refl
                _ (dict_new_mapping CView cb b its kwargs h Hb))
      as (acc & Hrun & _).
    rewrite Hrun. reflexivity.
Qed.

Lemma View_update_keeps_keys_witness :
  view_heap !! 0%nat
  = Some (ODict CView [(skey "a", VInt 1); (skey "b", VInt 2)])
  ∧ dict_keys <$> items_at (StateDict_update 0%nat [VRef 1%nat] [] view_heap).2
                    0%nat
    = Some [skey "a"; skey "b"].
Proof.
  split; [reflexivity|].
  exact (proj1 (View_update_keeps_keys view_heap 0%nat
                  [(skey "a", VInt 1); (skey "b", VInt 2)] [VRef 1%nat] []
                  eq_refl)).
Defined.

(** ** Exceptions *)

(** C4.  For every mapping state [self], empty or not, and every mapping
    [other], whatever its values, [self.update(other)] returns [None] and
    raises nothing.  The per-key merge [_update_item] is the [try]/[except]
    around [State.update_item]: it never lets a [TypeError] out, on any
    receiver and in any heap; on a key the state has it returns [None];
    and a [TypeError] raised by the [update_item] it calls is caught
    there and turned into the overwrite [self[key] = val]. *)
Theorem update_recovers_locally (h : heap) (self b : addr) (c cb : dict_kind)
    (items its : list (key * value)) (kwargs : list (string * value)) :
  h !! self = Some (ODict c items) → is_state c = true →
  h !! b = Some (ODict cb its) →
  (∃ h', StateDict_update self [VRef b] kwargs h = (Ok VNone, h'))
  ∧ (∀ k val hh, (StateDict__update_item self k val hh).1 ≠ Raise TypeError)
  ∧ (∀ k val,
       StateDict__update_item self k val h
       = _update_item_with (State_update_item (dict_kind_type c)) self k val h)
  ∧ (∀ k cur val, dict_get k items = Some cur →
       StateDict__update_item self k val h = (Ok VNone, h))
  ∧ (∀ update_item k cur val h1 acc1,
       dict_get k items = Some cur →
       update_item cur val h = (Raise TypeError, h1) →
       h1 !! self = Some (ODict c acc1) →
       _update_item_with update_item self k val h
       = (Ok VNone, <[self := ODict c (dict_set k val acc1)]> h1))
  ∧ (∀ update_item s k val hh,
       (_update_item_with update_item s k val hh).1 ≠ Raise TypeError).
Proof.
  intros Hself Hc Hb.
  assert (Hwith : ∀ update_item s k val hh,
            (_update_item_with update_item s k val hh).1 ≠ Raise TypeError).
  { intros ui s k v hh. unfold _update_item_with, try_except.
    destruct (bind (get_item s k) (fun cur0 => ui cur0 v) hh) as [[r|e] h2];
      [discriminate|].
    destruct (decide (e = TypeError)) as [->|Hne].
    - unfold bind, set_item.
      destruct (h2 !! s) as [[]|]; simpl; discriminate.
    - simpl. congruence. }
  split; [|split; [|split; [|split; [|split]]]].
  - destruct (StateDict_update_built h self c items [VRef b] kwargs Hself Hc
                _ (dict_new_mapping c cb b its kwargs h Hb))
      as (acc & Hrun & _).
    eexists. exact Hrun.
  - intros k val hh. unfold StateDict__update_item, bind.
    destruct (kind_of self hh) as [[c'|e] h2] eqn:Ekind.
    + apply Hwith.
    + unfold kind_of in Ekind.
      destruct (hh !! self) as [[]|]; inversion Ekind; discriminate.
  - intros k val. unfold StateDict__update_item, bind, kind_of.
    rewrite Hself. reflexivity.
  - intros k cur val Hk.
    apply (update_item_at h self c items k cur val Hself Hc Hk).
  - intros update_item k cur val h1 acc1 Hk Hraise Hself1.
    unfold _update_item_with, try_except, bind at 1.
    rewrite (get_item_at h self c items k cur Hself Hk), Hraise.
    destruct (decide (TypeError = TypeError)); [|contradiction].
    unfold bind. rewrite (set_item_at h1 self c acc1 k val Hself1).
    reflexivity.
  - exact Hwith.
Qed.

Lemma update_recovers_locally_witness :
  (∃ h', StateDict_update 1%nat [VRef 0%nat] [] empty_heap = (Ok VNone, h'))
  ∧ (∃ h', StateDict_update 0%nat [VRef 1%nat] [] atomic_heap = (Ok VNone, h'))
  ∧ StateDict__update_item 0%nat (skey "x") (VInt 2) atomic_heap
    = (Ok VNone, atomic_heap).
Proof.
  split; [|split].
  - exact (proj1 (update_recovers_locally empty_heap 1%nat 0%nat
                    CStateDict CStateDict [] [(skey "x", VInt 1)] []
                    eq_refl eq_refl eq_refl)).
  - exact (proj1 (update_recovers_locally atomic_heap 0%nat 1%nat
                    CStateDict CStateDict [(skey "x", VInt 1)]
                    [(skey "x", VInt 2)] [] eq_refl eq_refl eq_refl)).
  - pose proof (update_recovers_locally atomic_heap 0%nat 1%nat
                  CStateDict CStateDict [(skey "x", VInt 1)]
                  [(skey "x", VInt 2)] [] eq_refl eq_refl eq_refl)
      as (_ & _ & _ & Hpresent & _).
    exact (Hpresent (skey "x") (VInt 1) (VInt 2) eq_refl).
Defined.

(** ** The merge operator *)

(** C5.  For a mapping state [A] and a mapping [B], [A | B] returns a
    reference to an object that did not exist before, and every object of
    the heap, [A] and [B] and the values stored in them included, is
    afterwards what it was.  The other combinators, [update] on a mapping
    state and [update] and [push] on a log, return [None]. *)
Theorem or_leaves_operands (h : heap) (A B : addr) (cA cB : dict_kind)
    (itemsA itemsB : list (key * value)) :
  h !! A = Some (ODict cA itemsA) → is_state cA = true →
  h !! B = Some (ODict cB itemsB) →
  (∃ h', State___or__ (VRef A) (VRef B) h = (Ok (VRef (length h)), h')
         ∧ h !! length h = None
         ∧ preserved h h'
         ∧ h' !! A = Some (ODict cA itemsA)
         ∧ h' !! B = Some (ODict cB itemsB))
  ∧ (∀ self args kwargs hh r hh',
       StateDict_update self args kwargs hh = (Ok r, hh') → r = VNone)
  ∧ (∀ self other hh r hh',
       History_update self other hh = (Ok r, hh') → r = VNone)
  ∧ (∀ self item hh r hh',
       History_push self item hh = (Ok r, hh') → r = VNone).
Proof.
  intros HA Hc HB. repeat split.
  - exists (h ++ [ODict CDict (merge_items itemsA itemsB)]).
    rewrite (State_or_spec h A B cA cB itemsA itemsB HA Hc HB).
    repeat split.
    + apply lookup_ge_None. lia.
    + apply preserved_snoc.
    + apply lookup_snoc_old, HA.
    + apply lookup_snoc_old, HB.
  - intros self args kwargs hh r hh'. apply StateDict_update_returns_None.
  - intros self other hh r hh'. apply History_update_returns_None.
  - intros self item hh r hh'. apply History_push_returns_None.
Qed.

Lemma or_leaves_operands_witness :
  (∃ h', State___or__ (VRef 0%nat) (VRef 3%nat) nested_heap
         = (Ok (VRef 6%nat), h')
         ∧ nested_heap !! 6%nat = None
         ∧ preserved nested_heap h'
         ∧ h' !! 0%nat = Some (ODict CStateDict [(skey "a", VRef 1)])
         ∧ h' !! 3%nat = Some (ODict CStateDict [(skey "a", VRef 4)]))
  ∧ (∀ self args kwargs hh r hh',
       StateDict_update self args kwargs hh = (Ok r, hh') → r = VNone)
  ∧ (∀ self other hh r hh',
       History_update self other hh = (Ok r, hh') → r = VNone)
  ∧ (∀ self item hh r hh',
       History_push self item hh = (Ok r, hh') → r = VNone).
Proof.
  exact (or_leaves_operands nested_heap 0%nat 3%nat CStateDict CStateDict
           [(skey "a", VRef 1)] [(skey "a", VRef 4)] eq_refl eq_refl eq_refl).
Defined.

(** C10.  For a frozen-key state [F] and a mapping [B], [F | B] returns a
    new object of class [dict], not [View].  Its keys are those of [F]
    together with those of [B]; every key of [B] carries the value it has
    in [B], stored as it is, and the other keys carry the value they have
    in [F]. *)
Theorem View_or_is_plain_dict (h : heap) (F B : addr) (cB : dict_kind)
    (itemsF itemsB : list (key * value)) :
  h !! F = Some (ODict CView itemsF) →
  h !! B = Some (ODict cB itemsB) →
  NoDup (dict_keys itemsB) →
  ∃ res,
    State___or__ (VRef F) (VRef B) h
    = (Ok (VRef (length h)), h ++ [ODict CDict res])
    ∧ (∀ k, In k (dict_keys res) ↔
            In k (dict_keys itemsF) ∨ In k (dict_keys itemsB))
    ∧ (∀ k v, dict_get k itemsB = Some v → dict_get k res = Some v)
    ∧ (∀ k, dict_get k itemsB = None → dict_get k res = dict_get k itemsF).
Proof.
  intros HF HB Hnd. exists (merge_items itemsF itemsB). repeat split.
  - apply (State_or_spec h F B CView cB itemsF itemsB HF eq_refl HB).
  - apply merge_items_keys.
  - apply merge_items_keys.
  - intros k v. apply merge_items_get, Hnd.
  - intros k. apply merge_items_get_other.
Qed.

Lemma View_or_is_plain_dict_witness :
  ∃ res,
    State___or__ (VRef 0%nat) (VRef 1%nat) view_heap
    = (Ok (VRef 2%nat), view_heap ++ [ODict CDict res])
    ∧ (∀ k, In k (dict_keys res) ↔
            In k [skey "a"; skey "b"] ∨ In k [skey "a"; skey "c"])
    ∧ (∀ k v, dict_get k [(skey "a", VInt 10); (skey "c", VInt 99)] = Some v →
              dict_get k res = Some v)
    ∧ (∀ k, dict_get k [(skey "a", VInt 10); (skey "c", VInt 99)] = None →
            dict_get k res
            = dict_get k [(skey "a", VInt 1); (skey "b", VInt 2)]).
Proof.
  apply (View_or_is_plain_dict view_heap 0%nat 1%nat CDict
           [(skey "a", VInt 1); (skey "b", VInt 2)]
           [(skey "a", VInt 10); (skey "c", VInt 99)] eq_refl eq_refl).
  apply (bool_decide_unpack _). vm_compute. exact I.
Defined.

(** ** Merging with an empty mapping *)

(** C8.  For a mapping state [A] and an empty mapping [E]:
    [A.copy().update(E)] is a new object with exactly the items of [A];
    [A.update(E)] and [A.update()] return [None]; and in each case every
    object of the heap is afterwards what it was. *)
Theorem update_empty_is_noop (h : heap) (A E : addr) (c cE : dict_kind)
    (items : list (key * value)) :
  h !! A = Some (ODict c items) → is_state c = true →
  h !! E = Some (ODict cE []) →
  (∃ h', copy_then_update (VRef A) (VRef E) h = (Ok (VRef (length h)), h')
         ∧ items_at h' (length h) = Some items
         ∧ preserved h h')
  ∧ (∃ h', StateDict_update A [VRef E] [] h = (Ok VNone, h')
           ∧ preserved h h')
  ∧ (∃ h', StateDict_update A [] [] h = (Ok VNone, h') ∧ preserved h h').
Proof.
  intros HA Hc HE.
  assert (Hloop : ∀ h1, h1 = h ++ [ODict c []] →
            StateDict___update__ A (length h) h1 = (Ok VNone, h1)).
  { intros h1 ->. unfold StateDict___update__, bind at 1, items_of.
    rewrite lookup_snoc_new. reflexivity. }
  repeat split.
  - exists (h ++ [ODict CDict items]).
    change (copy_then_update (VRef A) (VRef E)) with
      (State___or__ (VRef A) (VRef E)).
    rewrite (State_or_spec h A E c cE items [] HA Hc HE).
    repeat split.
    + unfold items_at. rewrite lookup_snoc_new. reflexivity.
    + apply preserved_snoc.
  - exists (h ++ [ODict c []]). split; [|apply preserved_snoc].
    unfold StateDict_update, bind at 1, kind_of. rewrite HA.
    destruct c; try discriminate; unfold bind;
      rewrite (dict_new_mapping _ cE E [] [] h HE); apply Hloop; reflexivity.
  - exists (h ++ [ODict c []]). split; [|apply preserved_snoc].
    unfold StateDict_update, bind at 1, kind_of. rewrite HA.
    destruct c; try discriminate; unfold bind;
      rewrite dict_new_noargs; apply Hloop; reflexivity.
Qed.

Lemma update_empty_is_noop_witness :
  (∃ h', copy_then_update (VRef 0%nat) (VRef 1%nat) empty_heap
         = (Ok (VRef 2%nat), h')
         ∧ items_at h' 2%nat = Some [(skey "x", VInt 1)]
         ∧ preserved empty_heap h')
  ∧ (∃ h', StateDict_update 0%nat [VRef 1%nat] [] empty_heap = (Ok VNone, h')
           ∧ preserved empty_heap h')
  ∧ (∃ h', StateDict_update 0%nat [] [] empty_heap = (Ok VNone, h')
           ∧ preserved empty_heap h').
Proof.
  exact (update_empty_is_noop empty_heap 0%nat 1%nat CStateDict CStateDict
           [(skey "x", VInt 1)] eq_refl eq_refl eq_refl).
Defined.

(** ** Where the code departs from its documentation *)

(** C1.  On the code, [update] leaves the value of a colliding key as it
    was.  With [{"x": 1}] updated by [{"x": 2}], [x] is still [1]; with
    [{"a": {"b": {"c": 1}}}] updated by [{"a": {"b": {"c": 2, "d": 3}}}],
    no object of the first tree changes: the innermost state is still
    [{"c": 1}].  In both runs the heap only gains the argument mapping that
    [update] builds. *)
Theorem update_keeps_colliding_values :
  StateDict_update 0%nat [VRef 1%nat] [] atomic_heap
  = (Ok VNone, atomic_heap ++ [ODict CStateDict [(skey "x", VInt 2)]])
  ∧ StateDict_update 0%nat [VRef 3%nat] [] nested_heap
    = (Ok VNone, nested_heap ++ [ODict CStateDict [(skey "a", VRef 4)]]).
Proof. split; reflexivity. Qed.

(** C3.  On the code, the view [{"a": 1, "b": 2}] updated by
    [{"a": 10, "c": 99}] is still [{"a": 1, "b": 2}]: [c] is dropped and
    [b] untouched, but [a] is not updated to [10]. *)
Theorem View_update_scenario :
  StateDict_update 0%nat [VRef 1%nat] [] view_heap
  = (Ok VNone,
     view_heap ++ [ODict CView [(skey "a", VInt 10); (skey "c", VInt 99)]])
  ∧ items_at (StateDict_update 0%nat [VRef 1%nat] [] view_heap).2 0%nat
    = Some [(skey "a", VInt 1); (skey "b", VInt 2)]
  ∧ items_at (StateDict_update 0%nat [VRef 1%nat] [] view_heap).2 0%nat
    ≠ Some [(skey "a", VInt 10); (skey "b", VInt 2)].
Proof. repeat split; try reflexivity. discriminate. Qed.

(** C6.  On the code, the copy of a [StateDict] and the copy of a [View]
    are objects of class [dict]: new, with the items of the original, but
    not of the class of the original. *)
Theorem copy_is_plain_dict :
  call_copy (VRef 0%nat) atomic_heap
  = (Ok (VRef 2%nat), atomic_heap ++ [ODict CDict [(skey "x", VInt 1)]])
  ∧ kind_at atomic_heap 0%nat = Some CStateDict
  ∧ kind_at (call_copy (VRef 0%nat) atomic_heap).2 2%nat = Some CDict
  ∧ kind_at view_heap 0%nat = Some CView
  ∧ kind_at (call_copy (VRef 0%nat) view_heap).2 2%nat = Some CDict.
Proof. repeat split; reflexivity. Qed.

(** C7.  On the code, [push(item)] is [update(item)], not
    [update([item])]: on the log [[1, 2, 3, 4]], [push(5)] raises
    [TypeError] and appends nothing, where [update([5])] appends [5]; and
    [push("ab")] appends two elements. *)
Theorem push_is_update_of_item :
  History_push 0%nat (VInt 5) log_heap = (Raise TypeError, log_heap)
  ∧ History_update 0%nat (VRef 1%nat) log_heap
    = (Ok VNone,
       [OList CHistory [VInt 1; VInt 2; VInt 3; VInt 4; VInt 5];
        OList CList [VInt 5]])
  ∧ elems_at (History_push 0%nat (VStr "ab") log_heap).2 0%nat
    = Some [VInt 1; VInt 2; VInt 3; VInt 4; VStr "a"; VStr "b"]
  ∧ (∀ item h, History_push 0%nat item h
               = bind (History_update 0%nat item) (fun _ => ret VNone) h).
Proof. repeat split; reflexivity. Qed.

(** * Further properties of the code *)

(** ** More on items *)

Lemma dict_get_None_notin (k : key) (items : list (key * value)) :
  dict_get k items = None ↔ ¬ In k (dict_keys items).
Proof.
  rewrite dict_get_In. split.
  - intros H [v Hv]. congruence.
  - intros H. destruct (dict_get k items) eqn:E; [|reflexivity].
    exfalso. apply H. eauto.
Qed.

Lemma dict_get_app (k : key) (a b : list (key * value)) :
  dict_get k (a ++ b)
  = match dict_get k a with Some v => Some v | None => dict_get k b end.
Proof.
  induction a as [|[k0 v0] a IH]; simpl; [reflexivity|].
  destruct (decide (k0 = k)); [reflexivity | exact IH].
Qed.

Lemma dict_set_absent (k : key) (v : value) (items : list (key * value)) :
  dict_get k items = None → dict_set k v items = items ++ [(k, v)].
Proof.
  induction items as [|[k0 v0] rest IH]; simpl; [reflexivity|].
  destruct (decide (k0 = k)); [discriminate|].
  intros H. rewrite IH by assumption. reflexivity.
Qed.

Lemma dict_get_missing (k : key) (items tmp : list (key * value)) :
  dict_get k (missing_items items tmp)
  = if dict_contains k items then None else dict_get k tmp.
Proof.
  unfold missing_items. induction tmp as [|[k0 v0] tmp IH]; simpl.
  - destruct (dict_contains k items); reflexivity.
  - destruct (dict_contains k0 items) eqn:E0; simpl.
    + rewrite IH. destruct (decide (k0 = k)) as [->|]; [|reflexivity].
      rewrite E0. reflexivity.
    + destruct (decide (k0 = k)) as [->|]; [|exact IH].
      rewrite E0. reflexivity.
Qed.

Lemma missing_items_snoc (items pre : list (key * value)) (k : key) (v : value) :
  missing_items items (pre ++ [(k, v)])
  = missing_items items pre
    ++ (if dict_contains k items then [] else [(k, v)]).
Proof.
  unfold missing_items. rewrite List.filter_app. simpl.
  destruct (dict_contains k items); reflexivity.
Qed.

Lemma missing_items_present (items tmp : list (key * value)) :
  (∀ k, In k (dict_keys tmp) → In k (dict_keys items)) →
  missing_items items tmp = [].
Proof.
  unfold missing_items. induction tmp as [|[k0 v0] tmp IH]; intros Hsub;
    [reflexivity|].
  simpl. assert (H0 : dict_contains k0 items = true).
  { apply dict_contains_In, Hsub. left. reflexivity. }
  rewrite H0. simpl. apply IH. intros k Hk. apply Hsub. right. exact Hk.
Qed.

Lemma dict_get_split (k : key) (v : value) (pre suf : list (key * value)) :
  NoDup (dict_keys (pre ++ (k, v) :: suf)) →
  dict_get k pre = None ∧ dict_get k (pre ++ (k, v) :: suf) = Some v.
Proof.
  intros Hnd. unfold dict_keys in Hnd. rewrite map_app in Hnd.
  apply list.NoDup_app in Hnd as (_ & Hdisj & _).
  assert (Hpre : dict_get k pre = None).
  { apply dict_get_None_notin. intros Hin.
    apply (Hdisj k); [apply list_elem_of_In, Hin | left]. }
  split; [exact Hpre|].
  rewrite dict_get_app, Hpre. simpl.
  destruct (decide (k = k)); congruence.
Qed.

Lemma merge_items_lookup (k : key) (a b : list (key * value)) :
  NoDup (dict_keys b) →
  dict_get k (merge_items a b)
  = match dict_get k b with Some v => Some v | None => dict_get k a end.
Proof.
  intros Hnd. destruct (dict_get k b) as [v|] eqn:E.
  - apply merge_items_get; assumption.
  - apply merge_items_get_other; assumption.
Qed.

Lemma kwargs_items_NoDup (kwargs : list (string * value)) :
  NoDup (dict_keys (kwargs_items kwargs)).
Proof. apply merge_items_NoDup. constructor. Qed.

Lemma incoming_items_NoDup its kwargs :
  NoDup (dict_keys (incoming_items its kwargs)).
Proof. apply merge_items_NoDup, merge_items_NoDup. constructor. Qed.

Lemma incoming_items_lookup (k : key) its kwargs :
  NoDup (dict_keys its) →
  dict_get k (incoming_items its kwargs)
  = match dict_get k (kwargs_items kwargs) with
    | Some v => Some v
    | None => dict_get k its
    end.
Proof.
  intros Hnd. unfold incoming_items.
  rewrite merge_items_lookup by apply kwargs_items_NoDup.
  rewrite (merge_items_lookup k [] its Hnd).
  destruct (dict_get k its); reflexivity.
Qed.

(** ** The loop of [__update__] on a [StateDict], item by item *)

Section ExactLoop.

Variables (h1 : heap) (self other : addr) (co : dict_kind).
Variables (items tmp : list (key * value)).
Hypothesis Hself : h1 !! self = Some (ODict CStateDict items).
Hypothesis Hother : h1 !! other = Some (ODict co tmp).
Hypothesis Hne : self ≠ other.
Hypothesis Hnd : NoDup (dict_keys tmp).

Lemma exact_loop (suf pre : list (key * value)) :
  tmp = pre ++ suf →
  for_each (dict_keys suf) (update_body self other)
    (<[self := ODict CStateDict (items ++ missing_items items pre)]> h1)
  = (Ok tt,
     <[self := ODict CStateDict (items ++ missing_items items tmp)]> h1).
Proof.
  revert pre. induction suf as [|[k v] suf IH]; intros pre Htmp.
  - rewrite app_nil_r in Htmp. subst pre. reflexivity.
  - assert (Hsplit := Hnd). rewrite Htmp in Hsplit.
    apply dict_get_split in Hsplit as [Hpre Hget]. rewrite <- Htmp in Hget.
    specialize (IH (pre ++ [(k, v)])).
    rewrite <- app_assoc in IH. specialize (IH Htmp).
    rewrite missing_items_snoc in IH.
    simpl. unfold bind at 1. unfold update_body, bind at 1.
    rewrite (contains_at _ self CStateDict _ k
               (loop_heap_self h1 self CStateDict items Hself _)).
    unfold bind at 1.
    rewrite (get_item_at _ other co tmp k v
               (loop_heap_other h1 self other CStateDict co tmp
                  Hother Hne _) Hget).
    unfold dict_contains at 1. rewrite dict_get_app, dict_get_missing, Hpre.
    unfold dict_contains in IH |- *.
    destruct (dict_get k items) as [cur|] eqn:Hcur.
    + unfold bind at 1.
      rewrite (update_item_at _ self CStateDict _ k cur v
                 (loop_heap_self h1 self CStateDict items Hself _) eq_refl).
      * rewrite app_nil_r in IH. exact IH.
      * rewrite dict_get_app, Hcur. reflexivity.
    + unfold bind at 1.
      rewrite (add_item_at _ self CStateDict _ k v
                 (loop_heap_self h1 self CStateDict items Hself _) eq_refl).
      rewrite list_insert_insert_eq, dict_set_absent.
      * rewrite <- app_assoc. exact IH.
      * rewrite dict_get_app, Hcur, dict_get_missing.
        unfold dict_contains. rewrite Hcur. exact Hpre.
Qed.

End ExactLoop.

(** ** [update] in closed form *)

Lemma keys_after_update (k : key) (items tmp : list (key * value)) :
  In k (dict_keys tmp) → In k (dict_keys (items ++ missing_items items tmp)).
Proof.
  rewrite !dict_get_In. intros [v Hv].
  rewrite dict_get_app, dict_get_missing. unfold dict_contains.
  destruct (dict_get k items); eauto.
Qed.

Lemma incoming_items_keys (k : key) its kwargs :
  In k (dict_keys (incoming_items its kwargs)) ↔
  In k (dict_keys its) ∨ In k (dict_keys (kwargs_items kwargs)).
Proof.
  unfold incoming_items. rewrite !merge_items_keys. simpl. tauto.
Qed.

Lemma update_exact_StateDict (h : heap) (self b : addr) (cb : dict_kind)
    (items its : list (key * value)) (kwargs : list (string * value)) :
  h !! self = Some (ODict CStateDict items) →
  h !! b = Some (ODict cb its) →
  StateDict_update self [VRef b] kwargs h
  = (Ok VNone,
     <[self := ODict CStateDict
                 (items ++ missing_items items (incoming_items its kwargs))]>
       (h ++ [ODict CStateDict (incoming_items its kwargs)])).
Proof.
  intros Hself Hb.
  assert (Hlt : (self < length h)%nat) by (eapply lookup_lt_Some, Hself).
  unfold StateDict_update, bind at 1, kind_of. rewrite Hself.
  unfold bind at 1. rewrite (dict_new_mapping CStateDict cb b its kwargs h Hb).
  fold (incoming_items its kwargs).
  set (tmp := incoming_items its kwargs).
  pose proof (exact_loop (h ++ [ODict CStateDict tmp]) self (length h)
                CStateDict items tmp
                (lookup_snoc_old h _ _ self Hself) (lookup_snoc_new h _)
                ltac:(lia) (incoming_items_NoDup its kwargs) tmp [] eq_refl)
    as Hloop.
  simpl in Hloop. rewrite app_nil_r in Hloop.
  rewrite (list_insert_id _ self _ (lookup_snoc_old h _ _ self Hself))
    in Hloop.
  unfold StateDict___update__, bind at 1, items_of.
  rewrite lookup_snoc_new. unfold bind. rewrite Hloop. reflexivity.
Qed.

Lemma update_exact_View (h : heap) (F b : addr) (cb : dict_kind)
    (items its : list (key * value)) (kwargs : list (string * value)) :
  h !! F = Some (ODict CView items) →
  h !! b = Some (ODict cb its) →
  StateDict_update F [VRef b] kwargs h
  = (Ok VNone, h ++ [ODict CView (incoming_items its kwargs)]).
Proof.
  intros HF Hb.
  destruct (StateDict_update_built h F CView items [VRef b] kwargs HF eq_refl
              _ (dict_new_mapping CView cb b its kwargs h Hb))
    as (acc & Hrun & _ & _ & Hview).
  rewrite Hrun, (Hview eq_refl).
  rewrite (list_insert_id _ F _ (lookup_snoc_old h _ _ F HF)). reflexivity.
Qed.

(** X1.  [update] of a [StateDict] with a mapping and keyword arguments
    returns [None]; afterwards the state holds the items it had, in their
    order and with their values, followed by the incoming items whose key
    it lacked, in the order of the incoming mapping. *)
Theorem StateDict_update_closed_form (h : heap) (self b : addr)
    (cb : dict_kind) (items its : list (key * value))
    (kwargs : list (string * value)) :
  h !! self = Some (ODict CStateDict items) →
  h !! b = Some (ODict cb its) →
  StateDict_update self [VRef b] kwargs h
  = (Ok VNone,
     <[self := ODict CStateDict
                 (items ++ missing_items items (incoming_items its kwargs))]>
       (h ++ [ODict CStateDict (incoming_items its kwargs)])).
Proof. apply update_exact_StateDict. Qed.

Lemma StateDict_update_closed_form_witness :
  StateDict_update 0%nat [VRef 1%nat] [("z"%string, VInt 7)] merge_heap
  = (Ok VNone,
     [ODict CStateDict
        [(skey "x", VInt 1); (skey "y", VInt 3); (skey "z", VInt 7)];
      ODict CStateDict [(skey "x", VInt 2); (skey "y", VInt 3)];
      ODict CStateDict
        [(skey "x", VInt 2); (skey "y", VInt 3); (skey "z", VInt 7)]]).
Proof.
  exact (StateDict_update_closed_form merge_heap 0%nat 1%nat CStateDict
           [(skey "x", VInt 1)] [(skey "x", VInt 2); (skey "y", VInt 3)]
           [("z"%string, VInt 7)] eq_refl eq_refl).
Defined.

(** X2.  After [update] of a [StateDict] with a mapping, every key reads:
    the value it had before when it was present, else the value of the
    keyword argument of that name, else the value in the argument mapping;
    and every key of the argument mapping is a key of the state. *)
Theorem StateDict_update_lookup (h : heap) (self b : addr) (cb : dict_kind)
    (items its : list (key * value)) (kwargs : list (string * value)) :
  h !! self = Some (ODict CStateDict items) →
  h !! b = Some (ODict cb its) →
  NoDup (dict_keys its) →
  ∃ h' acc,
    StateDict_update self [VRef b] kwargs h = (Ok VNone, h')
    ∧ items_at h' self = Some acc
    ∧ (∀ k, dict_get k acc = updated_value items its kwargs k)
    ∧ (∀ k, In k (dict_keys its) → In k (dict_keys acc)).
Proof.
  intros Hself Hb Hnd.
  assert (Hlt : (self < length h)%nat) by (eapply lookup_lt_Some, Hself).
  eexists _, _. split; [apply (update_exact_StateDict h self b cb); eassumption|].
  split.
  { unfold items_at. rewrite list_lookup_insert_eq; [reflexivity|].
    rewrite length_app. lia. }
  split.
  - intros k. rewrite dict_get_app, dict_get_missing.
    rewrite (incoming_items_lookup k its kwargs Hnd).
    unfold updated_value, dict_contains.
    destruct (dict_get k items); reflexivity.
  - intros k Hk. apply keys_after_update, incoming_items_keys. left. exact Hk.
Qed.

Lemma StateDict_update_lookup_witness :
  ∃ h' acc,
    StateDict_update 0%nat [VRef 1%nat] [] merge_heap = (Ok VNone, h')
    ∧ items_at h' 0%nat = Some acc
    ∧ (∀ k, dict_get k acc
            = updated_value [(skey "x", VInt 1)]
                [(skey "x", VInt 2); (skey "y", VInt 3)] [] k)
    ∧ (∀ k, In k [skey "x"; skey "y"] → In k (dict_keys acc)).
Proof.
  apply (StateDict_update_lookup merge_heap 0%nat 1%nat CStateDict
           [(skey "x", VInt 1)] [(skey "x", VInt 2); (skey "y", VInt 3)] []
           eq_refl eq_refl).
  apply (bool_decide_unpack _). vm_compute. exact I.
Defined.

(** X3.  [update] never changes a [View], nor anything else: whatever the
    arguments, and whether the call returns or raises, every object of the
    heap is afterwards what it was. *)
Theorem View_update_changes_nothing (h : heap) (F : addr)
    (items : list (key * value)) (args : list value)
    (kwargs : list (string * value)) :
  h !! F = Some (ODict CView items) →
  preserved h (StateDict_update F args kwargs h).2.
Proof.
  intros HF.
  destruct (StateDict_update_frame h F CView items args kwargs HF eq_refl)
    as (acc & h' & -> & Hacc & Hothers & _ & Hview).
  intros a o Ha. destruct (decide (a = F)) as [->|Hne].
  - rewrite Hacc, (Hview eq_refl). congruence.
  - apply Hothers; assumption.
Qed.

Lemma View_update_changes_nothing_witness :
  preserved view_heap (StateDict_update 0%nat [VRef 1%nat] [] view_heap).2.
Proof.
  exact (View_update_changes_nothing view_heap 0%nat
           [(skey "a", VInt 1); (skey "b", VInt 2)] [VRef 1%nat] [] eq_refl).
Defined.

(** X4.  [update] of a mapping state fails cleanly: when it raises, every
    object of the heap, the state included, is what it was; and in every
    case the objects other than the state (the argument and the values
    stored in either mapping) are what they were. *)
Theorem update_failure_is_clean (h : heap) (self : addr) (c : dict_kind)
    (items : list (key * value)) (args : list value)
    (kwargs : list (string * value)) :
  h !! self = Some (ODict c items) → is_state c = true →
  (∀ e h', StateDict_update self args kwargs h = (Raise e, h') →
           preserved h h')
  ∧ (∀ r h' a o, StateDict_update self args kwargs h = (r, h') →
                 a ≠ self → h !! a = Some o → h' !! a = Some o).
Proof.
  intros Hself Hc. split.
  - intros e h' Hrun.
    destruct (dict_new_cases c args kwargs h) as [its [Hnew|[e' Hnew]]].
    + destruct (StateDict_update_built h self c items args kwargs Hself Hc
                  its Hnew) as (acc & Hok & _).
      rewrite Hok in Hrun. discriminate.
    + rewrite (StateDict_update_unbuilt h self c items args kwargs Hself Hc
                 e' its Hnew) in Hrun.
      inversion Hrun; subst. apply preserved_snoc.
  - intros r h' a o Hrun Hne Ha.
    destruct (StateDict_update_frame h self c items args kwargs Hself Hc)
      as (acc & h2 & Hh2 & _ & Hothers & _).
    rewrite Hrun in Hh2. simpl in Hh2. subst h2. apply Hothers; assumption.
Qed.

Lemma update_failure_is_clean_witness :
  (∀ e h', StateDict_update 0%nat [VInt 5] [] merge_heap = (Raise e, h') →
           preserved merge_heap h')
  ∧ (∀ r h' a o, StateDict_update 0%nat [VInt 5] [] merge_heap = (r, h') →
                 a ≠ 0%nat → merge_heap !! a = Some o → h' !! a = Some o).
Proof.
  exact (update_failure_is_clean merge_heap 0%nat CStateDict
           [(skey "x", VInt 1)] [VInt 5] [] eq_refl eq_refl).
Defined.

(** X5.  [update] of a mapping state surfaces the error of a bad argument
    before it touches anything: [None] or an integer raises [TypeError], and
    so do two or more positional arguments; a non-empty string raises
    [ValueError].  The heap only gains the empty mapping that was being
    built. *)
Theorem update_rejects_non_mappings (h : heap) (self : addr) (c : dict_kind)
    (items : list (key * value)) (kwargs : list (string * value)) :
  h !! self = Some (ODict c items) → is_state c = true →
  StateDict_update self [VNone] kwargs h
  = (Raise TypeError, h ++ [ODict c []])
  ∧ (∀ n, StateDict_update self [VInt n] kwargs h
          = (Raise TypeError, h ++ [ODict c []]))
  ∧ (∀ a1 a2 rest, StateDict_update self (a1 :: a2 :: rest) kwargs h
                   = (Raise TypeError, h ++ [ODict c []]))
  ∧ (∀ ch s, StateDict_update self [VStr (String ch s)] kwargs h
             = (Raise ValueError, h ++ [ODict c []])).
Proof.
  intros Hself Hc.
  repeat split; intros; unfold StateDict_update, bind at 1, kind_of;
    rewrite Hself; destruct c; try discriminate; reflexivity.
Qed.

Lemma update_rejects_non_mappings_witness :
  StateDict_update 0%nat [VNone] [] view_heap
  = (Raise TypeError, view_heap ++ [ODict CView []])
  ∧ (∀ n, StateDict_update 0%nat [VInt n] [] view_heap
          = (Raise TypeError, view_heap ++ [ODict CView []]))
  ∧ (∀ a1 a2 rest, StateDict_update 0%nat (a1 :: a2 :: rest) [] view_heap
                   = (Raise TypeError, view_heap ++ [ODict CView []]))
  ∧ (∀ ch s, StateDict_update 0%nat [VStr (String ch s)] [] view_heap
             = (Raise ValueError, view_heap ++ [ODict CView []])).
Proof.
  exact (update_rejects_non_mappings view_heap 0%nat CView
           [(skey "a", VInt 1); (skey "b", VInt 2)] [] eq_refl eq_refl).
Defined.

(** X6.  [update] with a mapping all of whose keys the state already has
    changes nothing: it returns [None] and every object of the heap is what
    it was.  This holds when the argument is the state itself. *)
Theorem update_with_known_keys_is_noop (h : heap) (self b : addr)
    (c cb : dict_kind) (items its : list (key * value)) :
  h !! self = Some (ODict c items) → is_state c = true →
  h !! b = Some (ODict cb its) →
  (∀ k, In k (dict_keys its) → In k (dict_keys items)) →
  ∃ h', StateDict_update self [VRef b] [] h = (Ok VNone, h')
        ∧ preserved h h'.
Proof.
  intros Hself Hc Hb Hsub.
  exists (h ++ [ODict c (incoming_items its [])]).
  split; [|apply preserved_snoc].
  destruct c; try discriminate.
  - rewrite (update_exact_StateDict h self b cb items its [] Hself Hb).
    rewrite missing_items_present.
    + rewrite app_nil_r.
      apply f_equal, list_insert_id, lookup_snoc_old, Hself.
    + intros k Hk. apply incoming_items_keys in Hk as [Hk|Hk];
        [apply Hsub, Hk | destruct Hk].
  - apply (update_exact_View h self b cb items its [] Hself Hb).
Qed.

Lemma update_with_known_keys_is_noop_witness :
  ∃ h', StateDict_update 0%nat [VRef 0%nat] [] merge_heap = (Ok VNone, h')
        ∧ preserved merge_heap h'.
Proof.
  apply (update_with_known_keys_is_noop merge_heap 0%nat 0%nat
           CStateDict CStateDict [(skey "x", VInt 1)] [(skey "x", VInt 1)]
           eq_refl eq_refl eq_refl).
  intros k Hk. exact Hk.
Defined.

(** X7.  [update] is idempotent: after [self.update(other)], a second
    [self.update(other)] with the same arguments returns [None] and leaves
    every object of the heap as the first call left it. *)
Theorem update_twice_is_update_once (h : heap) (self b : addr)
    (c cb : dict_kind) (items its : list (key * value))
    (kwargs : list (string * value)) :
  h !! self = Some (ODict c items) → is_state c = true →
  h !! b = Some (ODict cb its) →
  ∃ h1 h2,
    StateDict_update self [VRef b] kwargs h = (Ok VNone, h1)
    ∧ StateDict_update self [VRef b] kwargs h1 = (Ok VNone, h2)
    ∧ preserved h1 h2.
Proof.
  intros Hself Hc Hb.
  assert (Hlt : (self < length h)%nat) by (eapply lookup_lt_Some, Hself).
  destruct c; try discriminate.
  - set (tmp := incoming_items its kwargs).
    set (acc := items ++ missing_items items tmp).
    set (h1 := <[self := ODict CStateDict acc]> (h ++ [ODict CStateDict tmp])).
    assert (Hself1 : h1 !! self = Some (ODict CStateDict acc)).
    { apply list_lookup_insert_eq. rewrite length_app. lia. }
    assert (Hb1 : ∃ cb' its', h1 !! b = Some (ODict cb' its')
              ∧ ∀ k, In k (dict_keys its') → In k (dict_keys acc)).
    { destruct (decide (b = self)) as [->|Hne].
      - exists CStateDict, acc. split; [exact Hself1 | auto].
      - exists cb, its. split.
        + unfold h1. rewrite list_lookup_insert_ne by auto.
          apply lookup_snoc_old, Hb.
        + intros k Hk. apply keys_after_update, incoming_items_keys.
          left. exact Hk. }
    destruct Hb1 as (cb' & its' & Hb1 & Hsub).
    exists h1, (h1 ++ [ODict CStateDict (incoming_items its' kwargs)]).
    split; [apply (update_exact_StateDict h self b cb items its kwargs Hself Hb)|].
    split; [|apply preserved_snoc].
    rewrite (update_exact_StateDict h1 self b cb' acc its' kwargs Hself1 Hb1).
    rewrite missing_items_present.
    + rewrite app_nil_r.
      apply f_equal, list_insert_id, lookup_snoc_old, Hself1.
    + intros k Hk. apply incoming_items_keys in Hk as [Hk|Hk];
        [apply Hsub, Hk|].
      apply keys_after_update, incoming_items_keys. right. exact Hk.
  - exists (h ++ [ODict CView (incoming_items its kwargs)]),
      ((h ++ [ODict CView (incoming_items its kwargs)])
         ++ [ODict CView (incoming_items its kwargs)]).
    split; [apply (update_exact_View h self b cb items its kwargs Hself Hb)|].
    split; [|apply preserved_snoc].
    apply (update_exact_View _ self b cb items its kwargs);
      apply lookup_snoc_old; assumption.
Qed.

Lemma update_twice_is_update_once_witness :
  ∃ h1 h2,
    StateDict_update 0%nat [VRef 1%nat] [] merge_heap = (Ok VNone, h1)
    ∧ StateDict_update 0%nat [VRef 1%nat] [] h1 = (Ok VNone, h2)
    ∧ preserved h1 h2.
Proof.
  exact (update_twice_is_update_once merge_heap 0%nat 1%nat
           CStateDict CStateDict [(skey "x", VInt 1)]
           [(skey "x", VInt 2); (skey "y", VInt 3)] []
           eq_refl eq_refl eq_refl).
Defined.

(** ** More on the capability check *)

Lemma abc_answer_incl (t : abc_node) (C D : pytype) :
  incl C D → abc_answer t C = true → abc_answer t D = true.
Proof.
  intros Hincl. rewrite !abc_answer_iff.
  intros [[HU (Sup & HSup & Hd)]|[(K & HK & HKC)|(r & Hr & HrC)]].
  - left. split; [exact HU|]. exists Sup. auto.
  - right. left. exists K. auto.
  - right. right. exists r. auto.
Qed.

(** A check changes no later answer. *)
Lemma State_is_updatable_later (cls cls' C D : pytype) (w : abc_world) :
  cache_ok (abc_invalidation_counter w) (abc_tree w) →
  (State_is_updatable cls' D (State_is_updatable cls C w).2).1
  = (State_is_updatable cls' D w).1.
Proof.
  intros Hok.
  rewrite (State_is_updatable_answer cls' D w Hok).
  unfold State_is_updatable, issubclass_Updatable.
  destruct (abc_subclasscheck_spec _ _ C Hok) as (_ & Hok' & Her).
  destruct (abc_subclasscheck (abc_invalidation_counter w) (abc_tree w) C)
    as [b t'].
  cbn [fst snd abc_tree abc_invalidation_counter] in *.
  destruct (abc_subclasscheck_spec _ _ D Hok') as (Hb2 & _).
  destruct (abc_subclasscheck (abc_invalidation_counter w) t' D) as [b2 t2].
  cbn [fst] in *. rewrite Hb2. apply abc_answer_same, Her.
Qed.

(** X8.  Being updatable is inherited: when every class of the [__mro__]
    of [C] is in the [__mro__] of [D], and [C] is updatable, so is [D],
    asked in the same state of the abstract base classes or after the check
    of [C]; the calling class does not matter. *)
Theorem is_updatable_inherited (cls cls' C D : pytype) (w : abc_world) :
  incl C D → world_ok w →
  (State_is_updatable cls C w).1 = true →
  (State_is_updatable cls' D w).1 = true
  ∧ (State_is_updatable cls' D (State_is_updatable cls C w).2).1 = true.
Proof.
  intros Hincl [_ Hok] HC.
  rewrite (State_is_updatable_later cls cls' C D w Hok).
  rewrite (State_is_updatable_answer cls C w Hok) in HC.
  rewrite (State_is_updatable_answer cls' D w Hok).
  split; apply (abc_answer_incl _ C D Hincl HC).
Qed.

Lemma is_updatable_inherited_witness :
  incl dict_type StateDict_type
  ∧ (State_is_updatable View_type dict_type module_world).1 = true
  ∧ (State_is_updatable StateDict_type StateDict_type module_world).1 = true
  ∧ (State_is_updatable StateDict_type StateDict_type
       (State_is_updatable View_type dict_type module_world).2).1 = true.
Proof.
  assert (Hincl : incl dict_type StateDict_type).
  { intros x Hx. simpl in *. tauto. }
  split; [exact Hincl|]. split; [reflexivity|].
  exact (is_updatable_inherited View_type StateDict_type dict_type
           StateDict_type module_world Hincl module_world_ok eq_refl).
Defined.

(** The guard answers by the capability check, and leaves the heap. *)
Lemma Updater_update_item_result (cls : pytype) (original update : value)
    (w : abc_world) (h : heap) :
  In cls state_family →
  cache_ok (abc_invalidation_counter w) (abc_tree w) →
  (Updater_update_item cls original update w h).1
  = (if abc_answer (abc_tree w) (type_of h original)
     then Ok VNone else Raise TypeError, h).
Proof.
  intros Hcls Hok.
  pose proof (State_is_updatable_answer cls (type_of h original) w Hok) as Hans.
  unfold Updater_update_item, Updater_is_atomic.
  simpl in Hcls. destruct Hcls as [<-|[<-|[<-|[]]]];
    [replace (type_lookup State_type "is_updatable")
       with (Some State_class) by reflexivity
    |replace (type_lookup StateDict_type "is_updatable")
       with (Some State_class) by reflexivity
    |replace (type_lookup View_type "is_updatable")
       with (Some State_class) by reflexivity];
    rewrite pyclass_eqb_refl;
    match goal with
    | |- context [State_is_updatable ?c ?T w] =>
        destruct (State_is_updatable c T w) as [b w']
    end;
    simpl in Hans; subst b;
    destruct (abc_answer (abc_tree w) (type_of h original)); reflexivity.
Qed.

(** X9.  The guard [Updater.update_item], for a class of the mapping-state
    family and with the abstract base classes as the module leaves them
    (nothing registered, whatever was cached): it returns [None] when
    [original] is a mapping (a [dict], a [StateDict] or a [View]) or a
    [History], and raises [TypeError] when it is [None], an integer, a
    string or a plain [list]; it leaves the heap as it is. *)
Theorem Updater_update_item_guard (cls : pytype) (original update : value)
    (w : abc_world) (h : heap) :
  In cls state_family → world_ok w → abc_erase (abc_tree w) = module_tree →
  (Updater_update_item cls original update w h).1
  = (match original with
     | VRef a =>
         match h !! a with
         | Some (ODict _ _) | Some (OList CHistory _) => Ok VNone
         | _ => Raise TypeError
         end
     | _ => Raise TypeError
     end, h).
Proof.
  intros Hcls [_ Hok] Hmodule.
  rewrite (Updater_update_item_result cls original update w h Hcls Hok).
  rewrite (abc_answer_same module_tree (abc_tree w) _ Hmodule).
  destruct original as [| | |a]; [reflexivity | reflexivity | reflexivity |].
  unfold type_of.
  destruct (h !! a) as [[c its|c els]|]; try destruct c; reflexivity.
Qed.

Lemma Updater_update_item_guard_witness :
  In View_type state_family ∧ world_ok module_world
  ∧ (Updater_update_item View_type (VRef 1%nat) VNone module_world log_heap).1
    = (Raise TypeError, log_heap)
  ∧ (Updater_update_item View_type (VRef 0%nat) VNone module_world log_heap).1
    = (Ok VNone, log_heap).
Proof.
  assert (Hin : In View_type state_family) by (simpl; tauto).
  split; [exact Hin|]. split; [exact module_world_ok|]. split.
  - exact (Updater_update_item_guard View_type (VRef 1%nat) VNone module_world
             log_heap Hin module_world_ok eq_refl).
  - exact (Updater_update_item_guard View_type (VRef 0%nat) VNone module_world
             log_heap Hin module_world_ok eq_refl).
Defined.

(** X10.  [State.update_item] never raises and never changes the heap,
    whatever its arguments, for [State], [StateDict] and [View]: it does not
    run the guard of [Updater.update_item], which, with the abstract base
    classes as the module leaves them, raises [TypeError] on the same atomic
    argument. *)
Theorem State_update_item_never_checks (first second : value) (h : heap) :
  State_update_item State_type first second h = (Ok VNone, h)
  ∧ State_update_item StateDict_type first second h = (Ok VNone, h)
  ∧ State_update_item View_type first second h = (Ok VNone, h)
  ∧ ∀ n w, world_ok w → abc_erase (abc_tree w) = module_tree →
           (Updater_update_item StateDict_type (VInt n) second w h).1
           = (Raise TypeError, h).
Proof.
  repeat split. intros n w [_ Hok] Hmodule.
  rewrite (Updater_update_item_result StateDict_type (VInt n) second w h);
    [|simpl; tauto | exact Hok].
  rewrite (abc_answer_same module_tree (abc_tree w) _ Hmodule). reflexivity.
Qed.

Lemma State_update_item_never_checks_witness :
  State_update_item StateDict_type (VInt 1) (VInt 2) atomic_heap
  = (Ok VNone, atomic_heap)
  ∧ (Updater_update_item StateDict_type (VInt 1) (VInt 2) module_world
       atomic_heap).1
    = (Raise TypeError, atomic_heap).
Proof.
  pose proof (State_update_item_never_checks (VInt 1) (VInt 2) atomic_heap)
    as (_ & H2 & _ & H4).
  exact (conj H2 (H4 1 module_world module_world_ok eq_refl)).
Defined.

(** ** More on copies, single keys and the merge operator *)

(** X11.  [copy] of a mapping state is shallow and independent: it
    returns a new object holding the very items of the original (the values
    are shared, not copied), it changes no object, and storing a key into
    the copy leaves the original as it was, as storing into the original
    leaves the copy. *)
Theorem copy_is_shallow_and_independent (h : heap) (A : addr) (c : dict_kind)
    (items : list (key * value)) :
  h !! A = Some (ODict c items) → is_state c = true →
  ∃ h', call_copy (VRef A) h = (Ok (VRef (length h)), h')
        ∧ h' !! length h = Some (ODict CDict items)
        ∧ length h ≠ A
        ∧ preserved h h'
        ∧ (∀ k v, (set_item (length h) k v h').2 !! A = Some (ODict c items))
        ∧ (∀ k v, (set_item A k v h').2 !! length h
                  = Some (ODict CDict items)).
Proof.
  intros HA Hc.
  assert (Hlt : (A < length h)%nat) by (eapply lookup_lt_Some, HA).
  exists (h ++ [ODict CDict items]).
  split; [apply (call_copy_state h A c items HA Hc)|].
  split; [apply lookup_snoc_new|]. split; [lia|].
  split; [apply preserved_snoc|]. split; intros k v.
  - rewrite (set_item_at _ (length h) CDict items k v (lookup_snoc_new h _)).
    simpl. rewrite list_lookup_insert_ne by lia.
    apply lookup_snoc_old, HA.
  - rewrite (set_item_at _ A c items k v (lookup_snoc_old h _ _ A HA)).
    simpl. rewrite list_lookup_insert_ne by lia.
    apply lookup_snoc_new.
Qed.

Lemma copy_is_shallow_and_independent_witness :
  ∃ h', call_copy (VRef 0%nat) nested_heap = (Ok (VRef 6%nat), h')
        ∧ h' !! 6%nat = Some (ODict CDict [(skey "a", VRef 1)])
        ∧ 6%nat ≠ 0%nat
        ∧ preserved nested_heap h'
        ∧ (∀ k v, (set_item 6%nat k v h').2 !! 0%nat
                  = Some (ODict CStateDict [(skey "a", VRef 1)]))
        ∧ (∀ k v, (set_item 0%nat k v h').2 !! 6%nat
                  = Some (ODict CDict [(skey "a", VRef 1)])).
Proof.
  exact (copy_is_shallow_and_independent nested_heap 0%nat CStateDict
           [(skey "a", VRef 1)] eq_refl eq_refl).
Defined.

(** X12.  [_update_item] on a key the state does not have raises
    [KeyError], which its [except TypeError] does not catch, and changes
    nothing. *)
Theorem update_item_missing_key (h : heap) (self : addr) (c : dict_kind)
    (items : list (key * value)) (k : key) (val : value) :
  h !! self = Some (ODict c items) → is_state c = true →
  dict_get k items = None →
  StateDict__update_item self k val h = (Raise KeyError, h).
Proof.
  intros Hself Hc Hk.
  unfold StateDict__update_item, bind at 1, kind_of. rewrite Hself.
  unfold _update_item_with, try_except, bind at 1, get_item, bind at 1,
    items_of.
  rewrite Hself, Hk. reflexivity.
Qed.

Lemma update_item_missing_key_witness :
  StateDict__update_item 0%nat (skey "y") (VInt 3) atomic_heap
  = (Raise KeyError, atomic_heap).
Proof.
  exact (update_item_missing_key atomic_heap 0%nat CStateDict
           [(skey "x", VInt 1)] (skey "y") (VInt 3) eq_refl eq_refl eq_refl).
Defined.

(** X13.  [_add_item] returns [None] and touches no other object.  On a
    [StateDict] the key then reads the given value, whether it was present
    or not, and every other key reads what it read; on a [View] nothing
    changes. *)
Theorem add_item_stores_or_ignores (h : heap) (self : addr) (c : dict_kind)
    (items : list (key * value)) (k : key) (val : value) :
  h !! self = Some (ODict c items) → is_state c = true →
  ∃ h', call__add_item self k val h = (Ok VNone, h')
        ∧ (∀ a o, a ≠ self → h !! a = Some o → h' !! a = Some o)
        ∧ (c = CView → h' = h)
        ∧ (c = CStateDict →
           ∃ acc, items_at h' self = Some acc
                  ∧ dict_get k acc = Some val
                  ∧ ∀ k', k' ≠ k → dict_get k' acc = dict_get k' items).
Proof.
  intros Hself Hc.
  assert (Hlt : (self < length h)%nat) by (eapply lookup_lt_Some, Hself).
  eexists. split; [apply (add_item_at h self c items k val Hself Hc)|].
  destruct c; try discriminate.
  - split; [|split; [discriminate|]].
    + intros a o Hne Ha. rewrite list_lookup_insert_ne by auto. exact Ha.
    + intros _. exists (dict_set k val items). split; [|split].
      * unfold items_at. rewrite list_lookup_insert_eq by assumption.
        reflexivity.
      * apply dict_get_set_eq.
      * intros k' Hne. apply dict_get_set_ne. auto.
  - split; [auto|]. split; [reflexivity | discriminate].
Qed.

Lemma add_item_stores_or_ignores_witness :
  ∃ h', call__add_item 0%nat (skey "x") (VInt 9) atomic_heap = (Ok VNone, h')
        ∧ (∀ a o, a ≠ 0%nat → atomic_heap !! a = Some o → h' !! a = Some o)
        ∧ (CStateDict = CView → h' = atomic_heap)
        ∧ (CStateDict = CStateDict →
           ∃ acc, items_at h' 0%nat = Some acc
                  ∧ dict_get (skey "x") acc = Some (VInt 9)
                  ∧ ∀ k', k' ≠ skey "x" →
                          dict_get k' acc = dict_get k' [(skey "x", VInt 1)]).
Proof.
  exact (add_item_stores_or_ignores atomic_heap 0%nat CStateDict
           [(skey "x", VInt 1)] (skey "x") (VInt 9) eq_refl eq_refl).
Defined.

(** X14.  For every mapping state [A] and mapping [B] with distinct keys,
    [A | B] and [A.update(B)] part on colliding keys: in the new mapping
    that [A | B] returns every key of [B] reads the value of [B] and the
    other keys read the value of [A], whereas after [A.update(B)] every key
    [A] had still reads the value [A] had. *)
Theorem or_overwrites_where_update_keeps (h : heap) (A B : addr)
    (cA cB : dict_kind) (itemsA itemsB : list (key * value)) :
  h !! A = Some (ODict cA itemsA) → is_state cA = true →
  h !! B = Some (ODict cB itemsB) →
  NoDup (dict_keys itemsB) →
  (∃ res, State___or__ (VRef A) (VRef B) h
          = (Ok (VRef (length h)), h ++ [ODict CDict res])
          ∧ (∀ k v, dict_get k itemsB = Some v → dict_get k res = Some v)
          ∧ (∀ k, dict_get k itemsB = None →
                  dict_get k res = dict_get k itemsA))
  ∧ (∃ h2 acc, StateDict_update A [VRef B] [] h = (Ok VNone, h2)
               ∧ items_at h2 A = Some acc
               ∧ ∀ k v, dict_get k itemsA = Some v → dict_get k acc = Some v).
Proof.
  intros HA Hc HB Hnd. split.
  - exists (merge_items itemsA itemsB). split; [|split].
    + apply (State_or_spec h A B cA cB itemsA itemsB HA Hc HB).
    + intros k v. apply merge_items_get, Hnd.
    + intros k. apply merge_items_get_other.
  - destruct (StateDict_update_built h A cA itemsA [VRef B] [] HA Hc
                _ (dict_new_mapping cA cB B itemsB [] h HB))
      as (acc & Hrun & Hkeep & _).
    eexists _, acc. split; [exact Hrun|]. split; [|exact Hkeep].
    unfold items_at. rewrite list_lookup_insert_eq; [reflexivity|].
    rewrite length_app. apply lookup_lt_Some in HA. lia.
Qed.

Lemma or_overwrites_where_update_keeps_witness :
  (∃ res, State___or__ (VRef 0%nat) (VRef 1%nat) merge_heap
          = (Ok (VRef 2%nat), merge_heap ++ [ODict CDict res])
          ∧ (∀ k v, dict_get k [(skey "x", VInt 2); (skey "y", VInt 3)]
                    = Some v → dict_get k res = Some v)
          ∧ (∀ k, dict_get k [(skey "x", VInt 2); (skey "y", VInt 3)] = None →
                  dict_get k res = dict_get k [(skey "x", VInt 1)]))
  ∧ (∃ h2 acc, StateDict_update 0%nat [VRef 1%nat] [] merge_heap
               = (Ok VNone, h2)
               ∧ items_at h2 0%nat = Some acc
               ∧ ∀ k v, dict_get k [(skey "x", VInt 1)] = Some v →
                        dict_get k acc = Some v).
Proof.
  apply (or_overwrites_where_update_keeps merge_heap 0%nat 1%nat
           CStateDict CStateDict [(skey "x", VInt 1)]
           [(skey "x", VInt 2); (skey "y", VInt 3)] eq_refl eq_refl eq_refl).
  apply (bool_decide_unpack _). vm_compute. exact I.
Defined.

(** ** The log *)

Lemma iterate_heap (v : value) (h : heap) : (iterate v h).2 = h.
Proof. symmetry. apply (keeps_iterate (eq h) v h). reflexivity. Qed.

(** X15.  A log is append-only under [update] and [push] with [None], an
    integer, a string, a list, a log or a mapping as argument: the elements
    the log had stay in front, in their order, no other object changes, and
    [push] does exactly what [update] does with the same argument. *)
Theorem History_is_append_only (h : heap) (L : addr) (elems : list value)
    (other : value) :
  h !! L = Some (OList CHistory elems) →
  ∃ new, (History_update L other h).2
         = <[L := OList CHistory (elems ++ new)]> h
         ∧ History_push L other h = History_update L other h.
Proof.
  intros HL.
  assert (Hpush : History_push L other h = History_update L other h).
  { unfold History_push, bind at 1.
    destruct (History_update L other h) as [[r|e] h'] eqn:E; [|reflexivity].
    rewrite (History_update_returns_None L other h h' r E). reflexivity. }
  unfold History_update in *. unfold bind at 1, list_extend, bind at 1.
  pose proof (iterate_heap other h) as Hit.
  destruct (iterate other h) as [[new|e] h']; simpl in Hit; subst h'.
  - exists new. rewrite HL. simpl. auto.
  - exists []. simpl. rewrite app_nil_r, (list_insert_id h L _ HL). auto.
Qed.

Lemma History_is_append_only_witness :
  ∃ new, (History_update 0%nat (VStr "ab") log_heap).2
         = <[0%nat := OList CHistory
                        ([VInt 1; VInt 2; VInt 3; VInt 4] ++ new)]> log_heap
         ∧ History_push 0%nat (VStr "ab") log_heap
           = History_update 0%nat (VStr "ab") log_heap.
Proof.
  exact (History_is_append_only log_heap 0%nat
           [VInt 1; VInt 2; VInt 3; VInt 4] (VStr "ab") eq_refl).
Defined.

(** X16.  [update] of a log with a sequence appends the elements of the
    sequence, in their order; with the log itself as argument it doubles the
    log.  A string is appended character by character, and [None] or an
    integer raises [TypeError] and appends nothing. *)
Theorem History_update_appends_sequence (h : heap) (L o : addr)
    (co : list_kind) (elems new : list value) :
  h !! L = Some (OList CHistory elems) →
  h !! o = Some (OList co new) →
  History_update L (VRef o) h
  = (Ok VNone, <[L := OList CHistory (elems ++ new)]> h)
  ∧ (∀ s, History_update L (VStr s) h
          = (Ok VNone, <[L := OList CHistory (elems ++ chars s)]> h))
  ∧ (∀ n, History_update L (VInt n) h = (Raise TypeError, h))
  ∧ History_update L VNone h = (Raise TypeError, h).
Proof.
  intros HL Ho. repeat split; intros;
    unfold History_update, bind at 1, list_extend, bind at 1, iterate;
    rewrite ?Ho, ?HL; reflexivity.
Qed.

Lemma History_update_appends_sequence_witness :
  History_update 0%nat (VRef 0%nat) log_heap
  = (Ok VNone,
     [OList CHistory [VInt 1; VInt 2; VInt 3; VInt 4;
                      VInt 1; VInt 2; VInt 3; VInt 4];
      OList CList [VInt 5]])
  ∧ (∀ s, History_update 0%nat (VStr s) log_heap
          = (Ok VNone,
             <[0%nat := OList CHistory
                          ([VInt 1; VInt 2; VInt 3; VInt 4] ++ chars s)]>
               log_heap))
  ∧ (∀ n, History_update 0%nat (VInt n) log_heap = (Raise TypeError, log_heap))
  ∧ History_update 0%nat VNone log_heap = (Raise TypeError, log_heap).
Proof.
  exact (History_update_appends_sequence log_heap 0%nat 0%nat CHistory
           [VInt 1; VInt 2; VInt 3; VInt 4] [VInt 1; VInt 2; VInt 3; VInt 4]
           eq_refl eq_refl).
Defined.
